(** * LogoFive: a paid-access gateway (server.js)

  A shallow embedding of the Express server of [src/server.js]: the
  in-memory set [paidTokens], the token generator, the Stripe webhook
  receiver and the token-gated generation proxy, together with the
  properties its specification states about them.

  Conventions of the embedding:
  - a JavaScript string is a [string], read as the UTF-8 bytes of its text;
  - a value that arrives as JSON (request bodies, the upstream reply) is a
    [JSValue]; numbers are IEEE-754 doubles ([spec_float]);
  - the process-lifetime [Set] of tokens is a [gset string];
  - everything the server does not decide itself (the outcome of Stripe's
    signature check, the reply of the image API, the draws of
    [Math.random]) is an input of the handler that uses it;
  - [run] serves the requests one after the other; the event loop, where a
    generation call waits for the image API while other requests are
    served, is the module [Overlap], of which [run] is the schedules that
    settle each call before the next request arrives. *)

From Stdlib Require Import ZArith Bool Ascii String Lia.
From Stdlib Require Import Floats.SpecFloat.
From stdpp Require Import base decidable list gmap strings.

#[local] Open Scope string_scope.
#[local] Set Warnings "-register-all".

(** ** JavaScript values *)

Module JS.

Inductive JSValue : Type :=
| JUndefined
| JNull
| JBool (b : bool)
| JNumber (x : spec_float)
| JString (s : string)
| JArray (xs : list JSValue)
| JObject (fields : list (string * JSValue)).

(** ToBoolean: [undefined], [null], [false], [+0], [-0], [NaN] and the
    empty string are falsy, everything else is truthy. *)
Definition truthy (v : JSValue) : bool :=
  match v with
  | JUndefined | JNull => false
  | JBool b => b
  | JNumber (S754_zero _) | JNumber S754_nan => false
  | JNumber _ => true
  | JString s => negb (String.eqb s "")
  | JArray _ | JObject _ => true
  end.

(** [typeof v === "string"] *)
Definition is_string (v : JSValue) : bool :=
  match v with JString _ => true | _ => false end.

(** Own property of an object literal produced by a parser. *)
Fixpoint lookup_field (k : string) (fs : list (string * JSValue)) : JSValue :=
  match fs with
  | [] => JUndefined
  | (k', v) :: fs' => if String.eqb k k' then v else lookup_field k fs'
  end.

(** The canonical array index a property key denotes, for the keys the
    server reads: only ["0"] is ever used as an index. *)
Definition index_of_key (k : string) : option nat :=
  if String.eqb k "0" then Some 0%nat else None.

(** [v?.k]: [undefined] on a nullish receiver, the property otherwise.
    None of the keys the server reads ([token], [prompt], [data], [0],
    [b64_json], [url]) is inherited from a prototype, so a primitive or an
    array has them only as an index. *)
Definition opt_get (v : JSValue) (k : string) : JSValue :=
  match v with
  | JUndefined | JNull => JUndefined
  | JObject fs => lookup_field k fs
  | JArray xs =>
      match index_of_key k with
      | Some i => nth i xs JUndefined
      | None => JUndefined
      end
  | JString s =>
      match index_of_key k, s with
      | Some _, String c _ => JString (String c EmptyString)
      | _, _ => JUndefined
      end
  | JBool _ | JNumber _ => JUndefined
  end.

End JS.
Export JS.

(** ** Strings: what [replace(/minecraft|skywars/gi, ...)] and [trim] do *)

Module Str.

(** Case folding of one byte as the [i] flag of a non-unicode regular
    expression sees it: an ASCII letter equals its other case, every other
    byte only itself. *)
Definition lower (c : ascii) : ascii :=
  let n := nat_of_ascii c in
  if ((65 <=? n) && (n <=? 90))%nat then ascii_of_nat (n + 32) else c.

Definition ci_eqb (a b : ascii) : bool := Ascii.eqb (lower a) (lower b).

(** Every character of [s] satisfies [p]. *)
Fixpoint all_chars (p : ascii -> bool) (s : string) : bool :=
  match s with
  | EmptyString => true
  | String c s' => p c && all_chars p s'
  end.

(** [w] matches case-insensitively at the start of [s]. *)
Fixpoint prefix_ci (w s : string) : bool :=
  match w, s with
  | EmptyString, _ => true
  | String _ _, EmptyString => false
  | String a w', String c s' => ci_eqb a c && prefix_ci w' s'
  end.

(** A pattern none of whose characters can match the character [d]. *)
Definition avoids (d : ascii) (w : string) : bool :=
  all_chars (fun a => negb (ci_eqb a d)) w.

(** [w] occurs case-insensitively somewhere in [s]. *)
Fixpoint occurs_ci (w s : string) : bool :=
  prefix_ci w s ||
  match s with
  | EmptyString => false
  | String _ s' => occurs_ci w s'
  end.

(** Exact (case-sensitive) versions, as [String.prototype.includes]. *)
Fixpoint prefixb (w s : string) : bool :=
  match w, s with
  | EmptyString, _ => true
  | String _ _, EmptyString => false
  | String a w', String c s' => Ascii.eqb a c && prefixb w' s'
  end.

Fixpoint includes (s w : string) : bool :=
  prefixb w s ||
  match s with
  | EmptyString => false
  | String _ s' => includes s' w
  end.

(** The alternation [minecraft|skywars]: the length of the match at the
    start of [s], alternatives tried left to right. *)
Definition denylist : list string := ["minecraft"; "skywars"].

Fixpoint match_alt (ws : list string) (s : string) : option nat :=
  match ws with
  | [] => None
  | w :: ws' => if prefix_ci w s then Some (String.length w) else match_alt ws' s
  end.

Definition neutral : string := "pixel fantasy".

(** [s.replace(/minecraft|skywars/gi, "pixel fantasy")]: scan from the
    left; at a match emit the replacement and resume after the match
    ([skip] counts the characters of the match still to be passed over),
    otherwise copy one character. *)
Fixpoint replace_from (skip : nat) (s : string) : string :=
  match s with
  | EmptyString => EmptyString
  | String c s' =>
      match skip with
      | S k => replace_from k s'
      | O =>
          match match_alt denylist s with
          | Some n => neutral ++ replace_from (Nat.pred n) s'
          | None => String c (replace_from 0 s')
          end
      end
  end.

Definition replace_denylist (s : string) : string := replace_from 0 s.

(** White space and line terminators that [trim] strips, as UTF-8. *)
Definition bytes (l : list nat) : string :=
  string_of_list_ascii (map ascii_of_nat l).

Definition white_space : list string :=
  map bytes
    [ [9]; [10]; [11]; [12]; [13]; [32];           (* TAB LF VT FF CR SP *)
      [194; 160];                                  (* U+00A0 *)
      [225; 154; 128];                             (* U+1680 *)
      [226; 128; 128]; [226; 128; 129]; [226; 128; 130]; [226; 128; 131];
      [226; 128; 132]; [226; 128; 133]; [226; 128; 134]; [226; 128; 135];
      [226; 128; 136]; [226; 128; 137]; [226; 128; 138];  (* U+2000-200A *)
      [226; 128; 168]; [226; 128; 169];            (* U+2028 U+2029 *)
      [226; 128; 175];                             (* U+202F *)
      [226; 129; 159];                             (* U+205F *)
      [227; 128; 128];                             (* U+3000 *)
      [239; 187; 191] ]%nat.                       (* U+FEFF *)

Fixpoint drop (n : nat) (s : string) : string :=
  match n, s with
  | O, _ => s
  | S _, EmptyString => EmptyString
  | S n', String _ s' => drop n' s'
  end.

(** The length of the white space code point [s] starts with, if any. *)
Fixpoint leading_ws (ws : list string) (s : string) : option nat :=
  match ws with
  | [] => None
  | w :: ws' => if prefixb w s then Some (String.length w) else leading_ws ws' s
  end.

Fixpoint trim_start_from (skip : nat) (s : string) : string :=
  match s with
  | EmptyString => EmptyString
  | String c s' =>
      match skip with
      | S k => trim_start_from k s'
      | O =>
          match leading_ws white_space s with
          | Some n => trim_start_from (Nat.pred n) s'
          | None => s
          end
      end
  end.

Definition trimStart (s : string) : string := trim_start_from 0 s.

(** [s] is white space only. *)
Definition blank (s : string) : bool :=
  match trimStart s with
  | EmptyString => true
  | String _ _ => false
  end.

(** Cut where what remains is white space only. *)
Fixpoint trimEnd (s : string) : string :=
  match s with
  | EmptyString => EmptyString
  | String c s' => if blank s then EmptyString else String c (trimEnd s')
  end.

Definition trim (s : string) : string := trimEnd (trimStart s).

End Str.

(** ** The token generator *)

Module Token.

(** JavaScript numbers are binary64 doubles. *)
Definition prec : Z := 53.
Definition emax : Z := 1024.

(** The number a length is. *)
Definition number_of_nat (n : nat) : spec_float :=
  binary_normalize prec emax (Z.of_nat n) 0 false.

Definition chars : string :=
  "abcdefghijklmnopqrstuvwxyzABCDEFGHIJKLMNOPQRSTUVWXYZ0123456789".

(** [Math.floor]: the integer a finite double rounds down to; an infinity
    and NaN are returned as they are and are no integer. *)
Definition Math_floor (x : spec_float) : option Z :=
  match x with
  | S754_zero _ => Some 0%Z
  | S754_finite s m e => Some (Z.shiftl (if s then Zneg m else Zpos m) e)
  | S754_infinity _ | S754_nan => None
  end.

(** [Math.floor(r * chars.length)] for a draw [r] of [Math.random()], the
    product rounded to the nearest double as [*] does. *)
Definition pick_index (r : spec_float) : option Z :=
  Math_floor (SFmul prec emax r (number_of_nat (String.length chars))).

(** [s[i]]: [undefined] unless [i] is an index of the string. *)
Definition char_at (s : string) (i : option Z) : option ascii :=
  match i with
  | Some i => if (i <? 0)%Z then None else String.get (Z.to_nat i) s
  | None => None
  end.

(** [out += x] where [x] is a character or [undefined]. *)
Definition append_char (out : string) (x : option ascii) : string :=
  match x with
  | Some c => out ++ String c EmptyString
  | None => out ++ "undefined"
  end.

(** The body of [for (let i = 0; i < len; i++) out += chars[...]], with
    [todo = len - i] iterations left; [random i] is the draw of the [i]-th
    call of [Math.random]. *)
Fixpoint random_loop (random : nat -> spec_float) (todo i : nat) (out : string)
  : string :=
  match todo with
  | O => out
  | S todo' =>
      random_loop random todo' (S i)
        (append_char out (char_at chars (pick_index (random i))))
  end.

Definition cryptoRandomString (random : nat -> spec_float) (len : nat) : string :=
  random_loop random len 0 "".

Definition makeToken (random : nat -> spec_float) : string :=
  cryptoRandomString random 32.

Definition is_alnum (c : ascii) : bool :=
  let n := nat_of_ascii c in
  ((97 <=? n) && (n <=? 122) || (65 <=? n) && (n <=? 90)
   || (48 <=? n) && (n <=? 57))%nat.

(** What [Math.random] promises of a draw: a double [r] with [0 <= r < 1]. *)
Definition unit_double (r : spec_float) : Prop :=
  valid_binary prec emax r = true /\
  SFleb (S754_zero false) r = true /\
  SFltb r (SFone prec emax) = true.

Definition unit_interval (random : nat -> spec_float) : Prop :=
  forall i, unit_double (random i).

(** The state of the shifter of [SpecFloat] after [k] right shifts of the
    mantissa [M]: the quotient, and a round bit that is only set when the
    part shifted out is at least half a unit. *)
Definition shifted (M k : Z) (mrs : shr_record) : Prop :=
  (0 <= k /\ shr_m mrs = M / 2 ^ k /\
   (shr_r mrs = true -> 1 <= k /\ 2 ^ (k - 1) <= M mod 2 ^ k))%Z.

End Token.

(** ** The server *)

Module Server.

(** *** Responses *)

Inductive Payload : Type :=
| Text (s : string)                            (* res.send(s) *)
| View (name : string) (token : option JSValue) (* res.render(name, { token }) *)
| Received                                     (* { received: true } *)
| CheckoutUrl (url : JSValue)                  (* { url } *)
| ImageData (b64 : JSValue)        (* { image: `data:image/png;base64,${b64}` } *)
| ImageUrl (url : JSValue)                     (* { image: url } *)
| Failure (error : string) (details : option string) (* { error, details } *)
| ErrorPage (error : string).
    (* the page of Express's error handler for an exception no handler caught *)

Record Response : Type := { status : nat; payload : Payload }.

(** What a handler leaves behind: the response, the token store, and the
    prompt it posted to the image API, if it got that far. *)
Record Outcome : Type := {
  response : Response;
  store : gset string;
  posted : option string
}.

Definition reply (code : nat) (p : Payload) (σ : gset string) : Outcome :=
  {| response := {| status := code; payload := p |}; store := σ; posted := None |}.

(** *** The token store: [paidTokens.has], [.add], [.delete]

    The store only ever receives strings (the values of Stripe metadata), so
    under SameValueZero no other kind of value is a member. *)
Definition has (σ : gset string) (v : JSValue) : bool :=
  match v with
  | JString t => bool_decide (t ∈ σ)
  | _ => false
  end.

Definition add (σ : gset string) (t : string) : gset string := {[t]} ∪ σ.

Definition delete (σ : gset string) (v : JSValue) : gset string :=
  match v with
  | JString t => σ ∖ {[t]}
  | _ => σ
  end.

(** *** POST /webhook *)

(** A Checkout Session as far as the handler reads it: [metadata] is null or
    a map from strings to strings. *)
Record Session : Type := { metadata : option (list (string * string)) }.

(** [event.data] where the event has one: its [object] member, a Checkout
    Session, or [None] for anything no session can be read from. *)
Record Data : Type := { object : option Session }.

(** A Stripe event: [type], and [data], [None] when that member is absent
    or null. *)
Record Event : Type := { type : string; data : option Data }.

(** The session of the event, where there is one. *)
Definition data_object (ev : Event) : option Session :=
  match data ev with
  | Some d => object d
  | None => None
  end.

(** What [JSON.parse] makes of a raw body that is JSON: [null], an event, or
    some other value, one that has no string for a [type] (a number, an
    array, an object without it). *)
Inductive Verified : Type :=
| JsonNull
| JsonOther
| JsonEvent (ev : Event).

(** A webhook request as [stripe.webhooks.constructEvent] sees it: whether
    the signature header verifies against the raw body and the webhook
    secret, what the body parses to once it has ([None] when it is not
    JSON), and the message of the error thrown otherwise. *)
Record WebhookReq : Type := {
  signature_ok : bool;
  body_json : option Verified;
  error_message : string
}.

(** The event of the body, when it is one. *)
Definition parsed (req : WebhookReq) : option Event :=
  match body_json req with
  | Some (JsonEvent ev) => Some ev
  | _ => None
  end.

Definition constructEvent (req : WebhookReq) : string + Verified :=
  if signature_ok req then
    match body_json req with
    | Some v => inr v
    | None => inl (error_message req)
    end
  else inl (error_message req).

Fixpoint assoc (k : string) (m : list (string * string)) : option string :=
  match m with
  | [] => None
  | (k', v) :: m' => if String.eqb k k' then Some v else assoc k m'
  end.

(** [session?.metadata?.token] *)
Definition session_token (session : option Session) : option string :=
  match session with
  | None => None
  | Some s =>
      match metadata s with
      | None => None
      | Some m => assoc "token" m
      end
  end.

(** [if (token)] on a string or [undefined]. *)
Definition truthy_token (token : option string) : bool :=
  match token with
  | Some t => negb (String.eqb t "")
  | None => false
  end.

(** An exception thrown outside every [try]: Express answers 500 itself. *)
Definition uncaught (e : string) (σ : gset string) : Outcome :=
  reply 500 (ErrorPage e) σ.

Definition webhook (σ : gset string) (req : WebhookReq) : Outcome :=
  match constructEvent req with
  | inl msg => reply 400 (Text ("Webhook Error: " ++ msg)) σ
  | inr JsonNull =>
      (* [event.type] on null *)
      uncaught "TypeError: Cannot read properties of null (reading 'type')" σ
  | inr JsonOther => reply 200 Received σ
  | inr (JsonEvent event) =>
      if String.eqb (type event) "checkout.session.completed" then
        match data event with
        | None =>
            (* [event.data.object] without a [data] *)
            uncaught
              "TypeError: Cannot read properties of undefined (reading 'object')" σ
        | Some d =>
            let session := object d in
            let token := session_token session in
            let σ' :=
              if truthy_token token then
                match token with
                | Some t => add σ t
                | None => σ
                end
              else σ in
            reply 200 Received σ'
        end
      else reply 200 Received σ
  end.

(** *** POST /pagar *)

Record PagarReq : Type := {
  random : nat -> spec_float;              (* the draws of Math.random *)
  create_session : string -> string + JSValue
    (* stripe.checkout.sessions.create with metadata { token }: the error it
       throws, or the [url] of the session *)
}.

Definition pagar (σ : gset string) (req : PagarReq) : Outcome :=
  let token := Token.makeToken (random req) in
  match create_session req token with
  | inr url => reply 200 (CheckoutUrl url) σ
  | inl e => reply 500 (Failure "Erro ao criar pagamento" (Some e)) σ
  end.

(** *** GET /criar *)

Definition criar (σ : gset string) (token : JSValue) : Outcome :=
  let ok := truthy token && has σ token in
  if negb ok then
    reply 403 (Text "Acesso negado. Pague R$ 5 para liberar a criação.") σ
  else reply 200 (View "criar" (Some token)) σ.

(** *** POST /api/generate *)

(** The reply of the image API: [resp.ok], [resp.text()], and [resp.json()],
    which rejects (with the message on the left) when the body is not JSON. *)
Record UpstreamReply : Type := {
  ok : bool;
  text : string;
  json : string + JSValue
}.

(** [fetch] rejects, or resolves with a reply. *)
Inductive FetchResult : Type :=
| NetworkError (e : string)
| Resolved (resp : UpstreamReply).

(** [req.body] as the body parsers leave it ([undefined] when none of them
    parsed anything), and the image API as this request meets it. *)
Record GenerateReq : Type := {
  body : JSValue;
  fetch : string -> FetchResult
}.

(** Nothing can be destructured from [req.body]: it is [undefined] or
    [null]. *)
Definition body_missing (req : GenerateReq) : bool :=
  match body req with
  | JUndefined | JNull => true
  | _ => false
  end.

(** The TypeError of [const { token, prompt } = req.body] then, as V8
    words it. *)
Definition destructure_error (v : JSValue) : string :=
  match v with
  | JNull =>
      "TypeError: Cannot destructure property 'token' of 'req.body' as it is null."
  | _ =>
      "TypeError: Cannot destructure property 'token' of 'req.body' as it is undefined."
  end.

(** The string a string value holds. *)
Definition string_of (v : JSValue) : string :=
  match v with JString s => s | _ => "" end.

Definition safePrompt (prompt : string) : string :=
  Str.trim (Str.replace_denylist prompt).

Definition finalPrompt (safePrompt : string) : string :=
  Str.trim ("
Crie um ícone de app (logo) para um jogo RPG de aventura.
Estilo: detalhado, dramático, alto contraste, ícone central, visual premium.
Elementos: " ++ safePrompt ++ ".
Fundo: cor chapada (flat), sem textura, sem papel, sem mockup.
Sem texto, sem letras, sem marca d'água.
Formato: app icon, cantos arredondados.
Paleta: azul meia-noite, cinza aço, laranja fogo.
").

(** [const { token, prompt } = req.body] *)
Definition token_of (req : GenerateReq) : JSValue :=
  opt_get (body req) "token".

Definition prompt_of (req : GenerateReq) : JSValue :=
  opt_get (body req) "prompt".

(** The prompt composed from the [prompt] field of the request. *)
Definition composed (req : GenerateReq) : string :=
  finalPrompt (safePrompt (string_of (prompt_of req))).

(** The outcome [o], with the prompt [p] posted on the way. *)
Definition after_posting (p : string) (o : Outcome) : Outcome :=
  {| response := response o; store := store o; posted := Some p |}.

Definition generate (σ : gset string) (req : GenerateReq) : Outcome :=
  if body_missing req then
    (* the destructuring throws inside the [try] *)
    reply 500 (Failure "Erro interno." (Some (destructure_error (body req)))) σ
  else
  let token := token_of req in
  let prompt := prompt_of req in
  if negb (truthy token) || negb (has σ token) then
    reply 403 (Failure "Pagamento não confirmado." None) σ
  else if negb (truthy prompt) || negb (is_string prompt) then
    reply 400 (Failure "Prompt inválido." None) σ
  else
    let final := composed req in
    after_posting final
      match fetch req final with
      | NetworkError e => reply 500 (Failure "Erro interno." (Some e)) σ
      | Resolved resp =>
          if negb (ok resp) then
            reply 500 (Failure "Falha ao gerar imagem." (Some (text resp))) σ
          else
            match json resp with
            | inl e => reply 500 (Failure "Erro interno." (Some e)) σ
            | inr data =>
                let first := opt_get (opt_get data "data") "0" in
                let b64 := opt_get first "b64_json" in
                let url := opt_get first "url" in
                let σ' := delete σ token in
                if truthy b64 then reply 200 (ImageData b64) σ'
                else if truthy url then reply 200 (ImageUrl url) σ'
                else reply 500 (Failure "Resposta inesperada da API." None) σ'
            end
      end.

(** *** The server as a transition system *)

Inductive Request : Type :=
| GetHome
| PostPagar (req : PagarReq)
| GetSucesso
| GetCancelado
| GetCriar (token : JSValue)
| PostGenerate (req : GenerateReq)
| PostWebhook (req : WebhookReq).

Definition handle (σ : gset string) (r : Request) : Outcome :=
  match r with
  | GetHome => reply 200 (View "home" None) σ
  | PostPagar req => pagar σ req
  | GetSucesso => reply 200 (View "sucesso" None) σ
  | GetCancelado => reply 200 (View "cancelado" None) σ
  | GetCriar token => criar σ token
  | PostGenerate req => generate σ req
  | PostWebhook req => webhook σ req
  end.

(** The store after serving the requests of [trace] in order, from [σ]. *)
Fixpoint run (σ : gset string) (trace : list Request) : gset string :=
  match trace with
  | [] => σ
  | r :: trace' => run (store (handle σ r)) trace'
  end.

(** [paidTokens] is empty when the process starts. *)
Definition reachable (σ : gset string) : Prop :=
  exists trace, run ∅ trace = σ.

(** *** Histories: what a trace says about a token

    These follow the wording of the specification, not the handlers. *)

Definition completed : string := "checkout.session.completed".

(** [r] is a signature-verified [checkout.session.completed] webhook whose
    session metadata carries the token [t]. *)
Definition carries (t : string) (r : Request) : bool :=
  match r with
  | PostWebhook req =>
      signature_ok req &&
      match parsed req with
      | Some ev =>
          String.eqb (type ev) completed &&
          match session_token (data_object ev) with
          | Some t' => String.eqb t t'
          | None => false
          end
      | None => false
      end
  | _ => false
  end.

(** A string prompt that is not empty. *)
Definition valid_prompt (prompt : JSValue) : bool :=
  truthy prompt && is_string prompt.

(** [r] is a generation call presenting the token [t] with a valid prompt
    that the image API answers with a success status and a JSON body: the
    calls that consume their token. *)
Definition consumes (t : string) (r : Request) : bool :=
  match r with
  | PostGenerate req =>
      match token_of req with
      | JString t' => String.eqb t t'
      | _ => false
      end &&
      valid_prompt (prompt_of req) &&
      match fetch req (composed req) with
      | Resolved resp =>
          ok resp && match json resp with inr _ => true | inl _ => false end
      | NetworkError _ => false
      end
  | _ => false
  end.

(** Some webhook of the trace carried [t], and no call after it consumed it. *)
Definition paid_unconsumed (t : string) (trace : list Request) : Prop :=
  exists before r after,
    trace = (before ++ r :: after)%list /\
    carries t r = true /\
    forall r', r' ∈ after -> consumes t r' = false.

(** *** Sample requests *)

Definition paid_webhook (t : string) : WebhookReq :=
  {| signature_ok := true;
     body_json :=
       Some (JsonEvent
               {| type := completed;
                  data := Some {| object :=
                            Some {| metadata := Some [("token", t)] |} |} |});
     error_message := "" |}.

(** Where [paidTokens] stands after the payment for the token ["T1"]. *)
Definition store_T1 : gset string := run ∅ [PostWebhook (paid_webhook "T1")].

Definition body_T1_dragon : list (string * JSValue) :=
  [("token", JString "T1"); ("prompt", JString "dragon")].

(** The image API answers 200 with a body that is not JSON. *)
Definition generate_html_reply : GenerateReq :=
  {| body := JObject body_T1_dragon;
     fetch := fun _ =>
       Resolved {| ok := true; text := "<html></html>";
                   json := inl "SyntaxError: Unexpected token <" |} |}.

(** The image API answers 200 with a JSON body that has no image in it. *)
Definition generate_empty_reply : GenerateReq :=
  {| body := JObject body_T1_dragon;
     fetch := fun _ =>
       Resolved {| ok := true; text := "{}"; json := inr (JObject []) |} |}.

(** The image API answers 200 with an image. *)
Definition generate_image_reply : GenerateReq :=
  {| body := JObject body_T1_dragon;
     fetch := fun _ =>
       Resolved {| ok := true; text := "";
                   json := inr (JObject [("data",
                             JArray [JObject [("b64_json", JString "iVBORw0KGgo=")]])]) |} |}.

(** The image API answers with an error status. *)
Definition generate_refused : GenerateReq :=
  {| body := JObject body_T1_dragon;
     fetch := fun _ =>
       Resolved {| ok := false; text := "rate limited";
                   json := inl "SyntaxError: Unexpected token r" |} |}.

(** A paid token and no prompt. *)
Definition generate_no_prompt : GenerateReq :=
  {| body := JObject [("token", JString "T1")];
     fetch := fun _ => NetworkError "unreachable" |}.



Definition generate_minecraft : GenerateReq :=
  {| body := JObject [("token", JString "T1"); ("prompt", JString "minecraft castle")];
     fetch := fun _ => NetworkError "unreachable" |}.

Definition forged_webhook : WebhookReq :=
  {| signature_ok := false;
     body_json := body_json (paid_webhook "T1");
     error_message := "No signatures found matching the expected signature for payload." |}.

Definition refund_event : Event :=
  {| type := "charge.refunded"; data := None |}.

Definition refund_webhook : WebhookReq :=
  {| signature_ok := true; body_json := Some (JsonEvent refund_event);
     error_message := "" |}.





(** Draws that repeat zero, a half, the largest double below one and the
    smallest double above zero. *)
Definition sample_draws (i : nat) : spec_float :=
  nth (i mod 4)
    [ S754_zero false;
      S754_finite false 4503599627370496 (-53);
      S754_finite false 9007199254740991 (-53);
      S754_finite false 1 (-1074) ]
    (S754_zero false).

End Server.

(** ** The composed prompt, and further samples *)

Module Template.

(** The template of [finalPrompt] before and after the sanitized prompt,
    without the line breaks at its two ends. *)
Definition template_head : string :=
"Crie um ícone de app (logo) para um jogo RPG de aventura.
Estilo: detalhado, dramático, alto contraste, ícone central, visual premium.
Elementos: ".

Definition template_tail : string :=
".
Fundo: cor chapada (flat), sem textura, sem papel, sem mockup.
Sem texto, sem letras, sem marca d'água.
Formato: app icon, cantos arredondados.
Paleta: azul meia-noite, cinza aço, laranja fogo.".

(** A byte of the encoding of some white space character. *)
Definition ws_byte (c : ascii) : bool :=
  existsb (fun w => existsb (Ascii.eqb c) (list_ascii_of_string w))
          Str.white_space.

End Template.

Module Ledger.

Import Server.

(** The generation request presents the token [t]. *)
Definition presents (t : string) (req : GenerateReq) : bool :=
  match token_of req with
  | JString t' => String.eqb t t'
  | _ => false
  end.

(** A checkout request that Stripe accepts. *)
Definition pagar_accepted : PagarReq :=
  {| random := sample_draws;
     create_session := fun _ => inr (JString "https://checkout.stripe.com/c/pay/cs_test_a1") |}.

(** An image reply that carries both a [b64_json] and a [url]. *)
Definition generate_both_fields : GenerateReq :=
  {| body := JObject body_T1_dragon;
     fetch := fun _ =>
       Resolved {| ok := true; text := "";
                   json := inr (JObject [("data",
                             JArray [JObject [("url", JString "https://img.example/1.png");
                                              ("b64_json", JString "iVBORw0KGgo=")]])]) |} |}.

(** The first place of the character [c] in [s]. *)
Fixpoint position (c : ascii) (s : string) : option nat :=
  match s with
  | EmptyString => None
  | String a s' =>
      if Ascii.eqb c a then Some 0
      else match position c s' with
           | Some i => Some (S i)
           | None => None
           end
  end.

(** A double of the unit interval in the middle of the [i]-th of 62 equal
    parts: the greatest multiple of [2^-53] not above [(i + 1/2) / 62]. *)
Definition draw_for (i : nat) : spec_float :=
  binary_normalize Token.prec Token.emax
    (((2 * Z.of_nat i + 1) * 2 ^ 52) / 62) (-53) false.

(** Draws that spell the text [s], character by character. *)
Definition draws_for (s : string) (k : nat) : spec_float :=
  match String.get k s with
  | Some c =>
      match position c Token.chars with
      | Some i => draw_for i
      | None => S754_zero false
      end
  | None => S754_zero false
  end.

(** [unit_double] as a test. *)
Definition unit_doubleb (r : spec_float) : bool :=
  valid_binary Token.prec Token.emax r
  && SFleb (S754_zero false) r
  && SFltb r (SFone Token.prec Token.emax).

End Ledger.

(** ** The event loop: generation calls that overlap

    [POST /api/generate] is an [async] handler. It runs from the arrival of
    the request to [await fetch(...)], where it reads the token store, and
    it runs again when the reply of the image API has been read, where it
    writes it. In between, the event loop serves whatever else arrives:
    other requests, and other generation calls. The other handlers touch
    the store in one go. *)

Module Overlap.

Import Server Ledger.

(** The first run of the handler, up to [await fetch]: the answer it gives
    at once, or [None] when the prompt has gone to the image API and the
    call waits. *)
Definition accept (σ : gset string) (req : GenerateReq) : option Outcome :=
  if body_missing req then
    Some (reply 500
            (Failure "Erro interno." (Some (destructure_error (body req)))) σ)
  else
  let token := token_of req in
  let prompt := prompt_of req in
  if negb (truthy token) || negb (has σ token) then
    Some (reply 403 (Failure "Pagamento não confirmado." None) σ)
  else if negb (truthy prompt) || negb (is_string prompt) then
    Some (reply 400 (Failure "Prompt inválido." None) σ)
  else None.

(** The second run, from the settled [fetch] to the answer; [σ] is the
    store as it is by then. *)
Definition complete (σ : gset string) (req : GenerateReq) : Outcome :=
  let token := token_of req in
  let final := composed req in
  after_posting final
    match fetch req final with
    | NetworkError e => reply 500 (Failure "Erro interno." (Some e)) σ
    | Resolved resp =>
        if negb (ok resp) then
          reply 500 (Failure "Falha ao gerar imagem." (Some (text resp))) σ
        else
          match json resp with
          | inl e => reply 500 (Failure "Erro interno." (Some e)) σ
          | inr data =>
              let first := opt_get (opt_get data "data") "0" in
              let b64 := opt_get first "b64_json" in
              let url := opt_get first "url" in
              let σ' := delete σ token in
              if truthy b64 then reply 200 (ImageData b64) σ'
              else if truthy url then reply 200 (ImageUrl url) σ'
              else reply 500 (Failure "Resposta inesperada da API." None) σ'
          end
    end.

(** What the event loop does next: a request arrives, or the image API has
    answered the [i]-th of the calls that wait. *)
Inductive Step : Type :=
| Arrive (r : Request)
| Settle (i : nat).

(** The token store and the generation calls that wait for the image API. *)
Record Loop : Type := { tokens : gset string; waiting : list GenerateReq }.

Definition start : Loop := {| tokens := ∅; waiting := [] |}.

(** The list without its [i]-th element. *)
Definition without {A : Type} (i : nat) (l : list A) : list A :=
  firstn i l ++ skipn (S i) l.

(** One step: the loop afterwards, and the response sent, if one is. *)
Definition advance (s : Loop) (e : Step) : Loop * option Response :=
  match e with
  | Arrive (PostGenerate req) =>
      match accept (tokens s) req with
      | Some o => (s, Some (response o))
      | None => ({| tokens := tokens s; waiting := waiting s ++ [req] |}, None)
      end
  | Arrive r =>
      let o := handle (tokens s) r in
      ({| tokens := store o; waiting := waiting s |}, Some (response o))
  | Settle i =>
      match nth_error (waiting s) i with
      | Some req =>
          let o := complete (tokens s) req in
          ({| tokens := store o; waiting := without i (waiting s) |},
           Some (response o))
      | None => (s, None)
      end
  end.

Fixpoint play (s : Loop) (schedule : list Step) : Loop :=
  match schedule with
  | [] => s
  | e :: schedule' => play (fst (advance s e)) schedule'
  end.

(** The step hands out an image for the token [t]: it settles a call that
    presents [t] and is answered 200. *)
Definition image_settled (t : string) (s : Loop) (e : Step) : bool :=
  match e with
  | Settle i =>
      match nth_error (waiting s) i with
      | Some req =>
          presents t req
          && Nat.eqb (status (response (complete (tokens s) req))) 200
      | None => false
      end
  | Arrive _ => false
  end.

Fixpoint images_settled (t : string) (s : Loop) (schedule : list Step) : nat :=
  match schedule with
  | [] => 0
  | e :: schedule' =>
      (if image_settled t s e then 1 else 0)
      + images_settled t (fst (advance s e)) schedule'
  end.

(** The verified payment webhooks for [t] that arrive. *)
Fixpoint payments_arrived (t : string) (schedule : list Step) : nat :=
  match schedule with
  | [] => 0
  | Arrive r :: schedule' =>
      (if carries t r then 1 else 0) + payments_arrived t schedule'
  | Settle _ :: schedule' => payments_arrived t schedule'
  end.

(** How many of the waiting calls present [t]. *)
Fixpoint waiting_with (t : string) (l : list GenerateReq) : nat :=
  match l with
  | [] => 0
  | req :: l' => (if presents t req then 1 else 0) + waiting_with t l'
  end.

(** The step lets in a call that presents [t] while another one that
    presents [t] still waits. *)
Definition overlaps (t : string) (s : Loop) (e : Step) : bool :=
  match e with
  | Arrive (PostGenerate req) =>
      presents t req
      && match accept (tokens s) req with None => true | Some _ => false end
      && negb (Nat.eqb (waiting_with t (waiting s)) 0)
  | _ => false
  end.

(** No two calls that present [t] ever wait together. *)
Fixpoint serial (t : string) (s : Loop) (schedule : list Step) : bool :=
  match schedule with
  | [] => true
  | e :: schedule' =>
      negb (overlaps t s e) && serial t (fst (advance s e)) schedule'
  end.

(** Serving a trace one request after the other: each generation call is
    settled before the next request arrives. *)
Fixpoint one_by_one (trace : list Request) : list Step :=
  match trace with
  | [] => []
  | PostGenerate req :: trace' =>
      Arrive (PostGenerate req) :: Settle 0 :: one_by_one trace'
  | r :: trace' => Arrive r :: one_by_one trace'
  end.

(** One payment for ["T1"], two calls that arrive before either is
    settled. *)
Definition race : list Step :=
  [ Arrive (PostWebhook (paid_webhook "T1"));
    Arrive (PostGenerate generate_image_reply);
    Arrive (PostGenerate generate_image_reply);
    Settle 0;
    Settle 0 ].

(** What holds of the waiting calls when no two for [t] overlap: at most
    one presents [t], and while it waits [t] stays in the store. *)
Definition orderly (t : string) (s : Loop) : Prop :=
  waiting_with t (waiting s) <= 1 /\
  (waiting_with t (waiting s) = 1 -> t ∈ tokens s).

(** The image API answers the call with a success status and a JSON body:
    the replies after which the handler reaches [paidTokens.delete]. *)
Definition settles (req : GenerateReq) : bool :=
  match fetch req (composed req) with
  | Resolved resp =>
      ok resp && match json resp with inr _ => true | inl _ => false end
  | NetworkError _ => false
  end.

(** The step consumes [t]: it settles a waiting call that presents [t] and
    whose upstream reply is a success with a JSON body. *)
Definition spends (t : string) (s : Loop) (e : Step) : bool :=
  match e with
  | Settle i =>
      match nth_error (waiting s) i with
      | Some req => presents t req && settles req
      | None => false
      end
  | Arrive _ => false
  end.

(** Some step of the schedule, played from [s], consumes [t]. *)
Fixpoint spent (t : string) (s : Loop) (schedule : list Step) : bool :=
  match schedule with
  | [] => false
  | e :: schedule' => spends t s e || spent t (fst (advance s e)) schedule'
  end.

(** Some webhook of the schedule carried [t], and no step after it consumed
    it. *)
Definition paid_unspent (t : string) (schedule : list Step) : Prop :=
  exists before r after,
    schedule = (before ++ Arrive r :: after)%list /\
    carries t r = true /\
    spent t (play start (before ++ [Arrive r])) after = false.

End Overlap.

(** * Properties *)

Import Str Token Server.

(** ** The denylist substitution and [trim] *)

Section Matching.

Lemma denylist_cases (w : string) :
  w ∈ denylist -> w = "minecraft" \/ w = "skywars".
Proof.
  unfold denylist. rewrite !elem_of_cons, elem_of_nil. tauto.
Qed.

Lemma replace_from_drop (k : nat) (s : string) :
  replace_from k s = replace_from 0 (Str.drop k s).
Proof.
  revert k. induction s as [|c s IH]; intros [|k]; simpl; try reflexivity.
  apply IH.
Qed.

Lemma length_drop (k : nat) (s : string) :
  (String.length (Str.drop k s) <= String.length s)%nat.
Proof.
  revert k. induction s as [|c s IH]; intros [|k]; simpl; try lia.
  specialize (IH k). lia.
Qed.

(** A match of the alternation is a match of one of its words. *)
Lemma match_alt_complete (w s : string) :
  w ∈ denylist -> prefix_ci w s = true -> match_alt denylist s <> None.
Proof.
  intros [-> | ->]%denylist_cases Hw; unfold denylist; cbn [match_alt].
  - rewrite Hw. discriminate.
  - rewrite Hw. destruct (prefix_ci "minecraft" s); discriminate.
Qed.

(** The replacement starts with a [p]; a pattern without one that matches
    at the head of the output was copied there, so it matches the input. *)
Lemma prefix_ci_replaced (w s : string) :
  avoids "p" w = true ->
  prefix_ci w (replace_denylist s) = true -> prefix_ci w s = true.
Proof.
  unfold replace_denylist. revert w.
  induction s as [|c s IH]; intros w Hw H.
  - exact H.
  - destruct w as [|a w]; [reflexivity|].
    simpl in Hw. apply andb_true_iff in Hw as [Ha Hw].
    cbn [replace_from] in H.
    destruct (match_alt denylist (String c s)) as [n|].
    + change (ci_eqb a "p" && prefix_ci w ("ixel fantasy" ++ replace_from (Nat.pred n) s) = true) in H.
      apply negb_true_iff in Ha. rewrite Ha in H. discriminate.
    + cbn [prefix_ci] in *. apply andb_true_iff in H as [-> H].
      simpl. apply IH; assumption.
Qed.

Lemma head_clean (w s : string) :
  w ∈ denylist -> prefix_ci w (replace_denylist s) = false.
Proof.
  intros Hin. destruct (prefix_ci w (replace_denylist s)) eqn:E; [|reflexivity].
  assert (Hs : prefix_ci w s = true).
  { apply prefix_ci_replaced; [|exact E].
    destruct (denylist_cases _ Hin) as [-> | ->]; reflexivity. }
  pose proof (match_alt_complete _ _ Hin Hs) as Hm.
  unfold replace_denylist in E. destruct s as [|c s].
  - destruct (denylist_cases _ Hin) as [-> | ->]; discriminate.
  - cbn [replace_from] in E.
    destruct (match_alt denylist (String c s)) as [n|]; [|congruence].
    destruct (denylist_cases _ Hin) as [-> | ->]; discriminate.
Qed.

Lemma occurs_ci_neutral (w t : string) :
  w ∈ denylist -> occurs_ci w (neutral ++ t) = occurs_ci w t.
Proof.
  intros [-> | ->]%denylist_cases; reflexivity.
Qed.

Lemma replace_clean_bounded (n : nat) (w s : string) :
  w ∈ denylist -> (String.length s <= n)%nat ->
  occurs_ci w (replace_denylist s) = false.
Proof.
  intros Hin. revert s. induction n as [|n IH]; intros s Hlen.
  - destruct s; [|simpl in Hlen; lia].
    destruct (denylist_cases _ Hin) as [-> | ->]; reflexivity.
  - destruct s as [|c s].
    { destruct (denylist_cases _ Hin) as [-> | ->]; reflexivity. }
    simpl in Hlen.
    pose proof (head_clean w (String c s) Hin) as Hhead.
    unfold replace_denylist in *. cbn [replace_from] in *.
    destruct (match_alt denylist (String c s)) as [k|].
    + rewrite occurs_ci_neutral by assumption.
      rewrite replace_from_drop. apply IH.
      pose proof (length_drop (Nat.pred k) s). lia.
    + cbn [occurs_ci]. rewrite Hhead. simpl. apply IH. lia.
Qed.

Lemma replace_clean (w s : string) :
  w ∈ denylist -> occurs_ci w (replace_denylist s) = false.
Proof.
  intros Hin. apply (replace_clean_bounded (String.length s)); [assumption|lia].
Qed.

End Matching.

Section Trimming.

Lemma occurs_ci_cons (w : string) (c : ascii) (s : string) :
  occurs_ci w (String c s) = false <->
  prefix_ci w (String c s) = false /\ occurs_ci w s = false.
Proof. cbn [occurs_ci]. apply orb_false_iff. Qed.

Lemma occurs_ci_empty (w s : string) :
  occurs_ci w s = false -> occurs_ci w "" = false.
Proof.
  destruct w; [|reflexivity].
  destruct s; discriminate.
Qed.

Lemma occurs_ci_trim_start_from (w : string) (k : nat) (s : string) :
  occurs_ci w s = false -> occurs_ci w (trim_start_from k s) = false.
Proof.
  revert k. induction s as [|c s IH]; intros k H; [exact H|].
  pose proof H as H0. apply occurs_ci_cons in H as [_ Hs].
  cbn [trim_start_from]. destruct k as [|k]; [|auto].
  destruct (leading_ws white_space (String c s)); auto.
Qed.

Lemma prefix_ci_trimEnd (w s : string) :
  prefix_ci w (trimEnd s) = true -> prefix_ci w s = true.
Proof.
  revert w. induction s as [|c s IH]; intros w H; [exact H|].
  cbn [trimEnd] in H. destruct (blank (String c s)).
  - destruct w; [reflexivity|discriminate].
  - destruct w as [|a w]; [reflexivity|].
    cbn [prefix_ci] in *. apply andb_true_iff in H as [-> H].
    simpl. apply IH, H.
Qed.

Lemma occurs_ci_trimEnd (w s : string) :
  occurs_ci w s = false -> occurs_ci w (trimEnd s) = false.
Proof.
  induction s as [|c s IH]; intros H; [exact H|].
  pose proof (occurs_ci_empty _ _ H) as He.
  apply occurs_ci_cons in H as [Hp Hs].
  cbn [trimEnd]. destruct (blank (String c s)) eqn:Hb; [exact He|].
  apply occurs_ci_cons. split; [|auto].
  destruct (prefix_ci w (String c (trimEnd s))) eqn:E; [|reflexivity].
  enough (prefix_ci w (String c s) = true) by congruence.
  apply prefix_ci_trimEnd. cbn [trimEnd]. rewrite Hb. exact E.
Qed.

Lemma occurs_ci_trim (w s : string) :
  occurs_ci w s = false -> occurs_ci w (trim s) = false.
Proof.
  intros H. unfold trim, trimStart.
  apply occurs_ci_trimEnd, occurs_ci_trim_start_from, H.
Qed.

(** A character that the pattern avoids stops every match before it. *)
Lemma prefix_ci_app_avoided (d : ascii) (w x rest : string) :
  avoids d w = true ->
  prefix_ci w (x ++ String d rest) = prefix_ci w x.
Proof.
  revert x. induction w as [|a w IH]; intros x Hw; [reflexivity|].
  unfold avoids in Hw. cbn [all_chars] in Hw.
  apply andb_true_iff in Hw as [Ha Hw]. apply negb_true_iff in Ha.
  destruct x as [|c x].
  - change ("" ++ String d rest) with (String d rest).
    cbn [prefix_ci]. rewrite Ha. reflexivity.
  - change (String c x ++ String d rest) with (String c (x ++ String d rest)).
    cbn [prefix_ci]. rewrite (IH x Hw). reflexivity.
Qed.

Lemma occurs_ci_app_avoided (d : ascii) (w x rest : string) :
  avoids d w = true ->
  occurs_ci w x = false ->
  occurs_ci w (x ++ String d rest) = occurs_ci w (String d rest).
Proof.
  intros Hw. induction x as [|c x IH]; intros H; [reflexivity|].
  apply occurs_ci_cons in H as [Hp Hx].
  change (String c x ++ String d rest) with (String c (x ++ String d rest)).
  cbn [occurs_ci].
  change (String c (x ++ String d rest)) with (String c x ++ String d rest).
  rewrite prefix_ci_app_avoided, Hp by assumption. simpl. auto.
Qed.

(** Text without a denylisted word is left as it is. *)
Lemma replace_denylist_id (s : string) :
  (forall w, w ∈ denylist -> occurs_ci w s = false) ->
  replace_denylist s = s.
Proof.
  unfold replace_denylist. induction s as [|c s IH]; intros H; [reflexivity|].
  assert (Hm : occurs_ci "minecraft" (String c s) = false)
    by (apply H; unfold denylist; set_solver).
  assert (Hs : occurs_ci "skywars" (String c s) = false)
    by (apply H; unfold denylist; set_solver).
  apply occurs_ci_cons in Hm as [Hm _]. apply occurs_ci_cons in Hs as [Hs _].
  cbn [replace_from]. unfold denylist. cbn [match_alt]. rewrite Hm, Hs.
  f_equal. apply IH. intros w Hw. specialize (H w Hw).
  apply occurs_ci_cons in H. tauto.
Qed.

End Trimming.

Section Prompt.

(** At a match the scan emits the neutral phrase and resumes after it. *)
Lemma replace_at_match (w s : string) :
  w ∈ denylist -> prefix_ci w s = true ->
  replace_denylist s = neutral ++ replace_denylist (Str.drop (String.length w) s).
Proof.
  intros Hin Hw. unfold replace_denylist.
  destruct s as [|c s].
  { destruct (denylist_cases _ Hin) as [-> | ->]; discriminate. }
  cbn [replace_from]. unfold denylist. cbn [match_alt].
  destruct (denylist_cases _ Hin) as [-> | ->].
  - rewrite Hw. rewrite replace_from_drop. reflexivity.
  - assert (Hm : prefix_ci "minecraft" (String c s) = false).
    { cbn [prefix_ci] in *. apply andb_true_iff in Hw as [Hc _].
      unfold ci_eqb in *. apply Ascii.eqb_eq in Hc. rewrite <- Hc. reflexivity. }
    rewrite Hm, Hw. rewrite replace_from_drop. reflexivity.
Qed.

(** Elsewhere it copies the character. *)
Lemma replace_at_other (c : ascii) (s : string) :
  (forall w, w ∈ denylist -> prefix_ci w (String c s) = false) ->
  replace_denylist (String c s) = String c (replace_denylist s).
Proof.
  intros H. unfold replace_denylist. cbn [replace_from].
  unfold denylist. cbn [match_alt].
  rewrite !H by (unfold denylist; set_solver). reflexivity.
Qed.

Lemma safePrompt_clean (w prompt : string) :
  w ∈ denylist -> occurs_ci w (safePrompt prompt) = false.
Proof.
  intros Hin. unfold safePrompt. apply occurs_ci_trim, replace_clean, Hin.
Qed.

(** The template adds no denylisted word, alone or across its seams. *)
Lemma finalPrompt_clean (w x : string) :
  w ∈ denylist -> occurs_ci w x = false -> occurs_ci w (finalPrompt x) = false.
Proof.
  intros Hin Hx. unfold finalPrompt. apply occurs_ci_trim.
  lazymatch goal with
  | |- occurs_ci _ (?pre ++ _ ++ String ?d ?rest) = false =>
      transitivity (occurs_ci w (x ++ String d rest));
      [ generalize (x ++ String d rest); intros y;
        destruct (denylist_cases _ Hin) as [-> | ->]; reflexivity
      | rewrite occurs_ci_app_avoided;
        [ | destruct (denylist_cases _ Hin) as [-> | ->]; reflexivity
          | exact Hx ];
        destruct (denylist_cases _ Hin) as [-> | ->]; reflexivity ]
  end.
Qed.

(** A string includes what occurs in it case-insensitively, so a text free
    of a word in any case is free of the word as written. *)
Lemma prefixb_prefix_ci (w s : string) :
  prefixb w s = true -> prefix_ci w s = true.
Proof.
  revert s. induction w as [|a w IH]; intros [|c s] H; try reflexivity;
    try discriminate.
  cbn [prefixb prefix_ci] in *. apply andb_true_iff in H as [Hc H].
  apply Ascii.eqb_eq in Hc as ->. rewrite (IH _ H).
  unfold ci_eqb. rewrite Ascii.eqb_refl. reflexivity.
Qed.

Lemma includes_occurs_ci (w s : string) :
  occurs_ci w s = false -> includes s w = false.
Proof.
  induction s as [|c s IH]; intros H.
  - cbn [includes occurs_ci] in *. apply orb_false_iff in H as [H _].
    apply orb_false_iff. split; [|reflexivity].
    destruct (prefixb w "") eqn:E; [|reflexivity].
    apply prefixb_prefix_ci in E. congruence.
  - apply occurs_ci_cons in H as [Hp Hs].
    cbn [includes]. apply orb_false_iff. split; [|auto].
    destruct (prefixb w (String c s)) eqn:E; [|reflexivity].
    apply prefixb_prefix_ci in E. congruence.
Qed.

End Prompt.

(** ** The token generator *)

Section Doubles.

#[local] Open Scope Z_scope.

Lemma digits2_pos_bounds (p : positive) :
  2 ^ (Zpos (digits2_pos p) - 1) <= Zpos p < 2 ^ Zpos (digits2_pos p).
Proof.
  induction p as [p IH|p IH|]; cbn [digits2_pos].
  - rewrite Pos2Z.inj_succ.
    replace (Z.succ (Zpos (digits2_pos p)) - 1) with (Z.succ (Zpos (digits2_pos p) - 1)) by lia.
    rewrite !Z.pow_succ_r by lia. lia.
  - rewrite Pos2Z.inj_succ.
    replace (Z.succ (Zpos (digits2_pos p)) - 1) with (Z.succ (Zpos (digits2_pos p) - 1)) by lia.
    rewrite !Z.pow_succ_r by lia. lia.
  - simpl. lia.
Qed.

(** One right shift halves the mantissa and records the bit shifted out. *)
Lemma shr_1_spec (mrs : shr_record) :
  0 <= shr_m mrs ->
  shr_m (shr_1 mrs) = shr_m mrs / 2 /\ shr_r (shr_1 mrs) = Z.odd (shr_m mrs).
Proof.
  destruct mrs as [q r s]. cbn [shr_m]. intros Hq.
  destruct q as [|[p|p|]|p]; cbn [shr_1 shr_m shr_r]; try lia.
  - split; reflexivity.
  - split; [|reflexivity]. rewrite Pos2Z.inj_xI.
    apply Z.div_unique with (r := 1); lia.
  - split; [|reflexivity]. rewrite Pos2Z.inj_xO.
    apply Z.div_unique with (r := 0); lia.
  - split; reflexivity.
Qed.

Lemma shifted_step (M k : Z) (mrs : shr_record) :
  0 <= M -> shifted M k mrs -> shifted M (k + 1) (shr_1 mrs).
Proof.
  intros HM (Hk & Hq & _).
  assert (Hpow : 0 < 2 ^ k) by (apply Z.pow_pos_nonneg; lia).
  assert (Hq0 : 0 <= shr_m mrs) by (rewrite Hq; apply Z.div_pos; lia).
  destruct (shr_1_spec mrs Hq0) as [Hm Hr].
  split; [lia|]. split.
  - rewrite Hm, Hq, Z.pow_add_r, Z.pow_1_r by lia.
    rewrite Z.div_div by lia. reflexivity.
  - intros Hodd. rewrite Hr, Hq in Hodd. split; [lia|].
    replace (k + 1 - 1) with k by lia.
    rewrite Z.pow_add_r, Z.pow_1_r by lia.
    rewrite Z.rem_mul_r by lia.
    rewrite Zmod_odd, Hodd.
    pose proof (Z.mod_pos_bound M (2 ^ k) Hpow). lia.
Qed.

Lemma shifted_iter (M : Z) (p : positive) (k : Z) (mrs : shr_record) :
  0 <= M -> shifted M k mrs -> shifted M (k + Zpos p) (SpecFloat.iter_pos shr_1 p mrs).
Proof.
  intros HM. revert k mrs.
  induction p as [p IH|p IH|]; intros k mrs H; cbn [SpecFloat.iter_pos].
  - replace (k + Zpos p~1) with (k + 1 + Zpos p + Zpos p) by lia.
    apply IH, IH, shifted_step; assumption.
  - replace (k + Zpos p~0) with (k + Zpos p + Zpos p) by lia.
    apply IH, IH; assumption.
  - apply shifted_step; assumption.
Qed.

Lemma shr_fexp_exact (M E : Z) :
  0 <= M ->
  let N := Z.max 0 (fexp prec emax (Zdigits2 M + E) - E) in
  shifted M N (fst (shr_fexp prec emax M E loc_Exact)) /\
  snd (shr_fexp prec emax M E loc_Exact) = E + N.
Proof.
  intros HM N. unfold shr_fexp, shr. subst N.
  cbn [shr_record_of_loc].
  assert (H0 : shifted M 0 {| shr_m := M; shr_r := false; shr_s := false |}).
  { split; [lia|]. split; [cbn; rewrite Z.div_1_r; reflexivity|]. cbn. discriminate. }
  destruct (fexp prec emax (Zdigits2 M + E) - E) as [|p|p] eqn:Hn; cbn [fst snd].
  - split; [exact H0|lia].
  - split; [|lia]. replace (Z.max 0 (Zpos p)) with (0 + Zpos p) by lia.
    apply shifted_iter; assumption.
  - split; [|lia]. replace (Z.max 0 (Zneg p)) with 0 by lia. exact H0.
Qed.

Lemma round_nearest_even_spec (mrs : shr_record) :
  let q := round_nearest_even (shr_m mrs) (loc_of_shr_record mrs) in
  q = shr_m mrs \/ (q = shr_m mrs + 1 /\ shr_r mrs = true).
Proof.
  destruct mrs as [m [|] [|]]; cbn; try (left; reflexivity).
  - right. split; reflexivity.
  - destruct (Z.even m); [left|right]; split; reflexivity.
Qed.

Lemma fexp_53 (x : Z) : fexp prec emax x = Z.max (x - 53) (-1074).
Proof. reflexivity. Qed.

Lemma pow2_lt_inv (a b : Z) : 0 <= b -> 2 ^ a < 2 ^ b -> a < b.
Proof. intros Hb H. apply (Z.pow_lt_mono_r_iff 2); [lia|assumption|assumption]. Qed.

Lemma mul_62_bound (m : positive) (e : Z) :
  -1074 <= e <= -52 -> Zpos m < 2 ^ 53 -> Zpos m < 2 ^ (- e) ->
  match SFmul prec emax (S754_finite false m e) (number_of_nat (String.length chars)) with
  | S754_zero false => True
  | S754_finite false m' e' => e' < 0 /\ Zpos m' < 62 * 2 ^ (- e')
  | _ => False
  end.
Proof.
  intros He Hm53 Hma.
  change (number_of_nat (String.length chars))
    with (S754_finite false 8725724278030336 (-47)).
  cbn [SFmul xorb]. unfold binary_round_aux.
  set (C := 8725724278030336%positive).
  assert (HC : Zpos C = 62 * 2 ^ 47) by reflexivity.
  set (M := Zpos (m * C)). set (E := e + -47).
  assert (HM : M = Zpos m * Zpos C) by (unfold M; apply Pos2Z.inj_mul).
  assert (HM0 : 0 <= M) by (unfold M; lia).
  (* the size of the exact product *)
  pose proof (digits2_pos_bounds (m * C)) as Hd. fold M in Hd.
  set (d := Zpos (digits2_pos (m * C))) in *.
  assert (Hd0 : 1 <= d) by (unfold d; lia).
  assert (Hpa : 0 < 2 ^ (- e)) by (apply Z.pow_pos_nonneg; lia).
  assert (HMup : M <= Zpos C * 2 ^ (- e) - Zpos C) by nia.
  assert (Hd106 : d <= 106).
  { enough (d - 1 < 106) by lia. apply pow2_lt_inv; [lia|].
    apply Z.le_lt_trans with (m := M); [apply Hd|].
    rewrite HM. change (2 ^ 106) with (2 ^ 53 * 2 ^ 53).
    apply Z.mul_lt_mono_nonneg; lia. }
  assert (HdE : d + E <= 6).
  { enough (d - 1 < - e + 53) by (unfold E; lia). apply pow2_lt_inv; [lia|].
    apply Z.le_lt_trans with (m := M); [apply Hd|].
    rewrite Z.pow_add_r by lia. change (2 ^ 53) with 9007199254740992.
    rewrite HM, HC. change (62 * 2 ^ 47) with 8725724278030336. nia. }
  (* first shift *)
  destruct (shr_fexp_exact M E HM0) as [(HN1 & Hq1 & Hr1) He1].
  change (Zdigits2 M) with d in *.
  rewrite fexp_53 in *.
  set (N1 := Z.max 0 (Z.max (d + E - 53) (-1074) - E)) in *.
  destruct (shr_fexp prec emax M E loc_Exact) as [mrs1 e1]. cbn [fst snd] in *.
  assert (HN1up : N1 <= 53) by (unfold N1, E; lia).
  assert (HN1d : d <= N1 + 53) by (unfold N1; lia).
  assert (He1up : e1 <= -47) by (unfold N1, E in *; lia).
  assert (He1lo : -1074 <= e1) by (unfold N1, E in *; lia).
  assert (Hp1 : 0 < 2 ^ N1) by (apply Z.pow_pos_nonneg; lia).
  set (T := 62 * 2 ^ (- e1)).
  assert (HT : T * 2 ^ N1 = Zpos C * 2 ^ (- e)).
  { unfold T. rewrite HC, <- !Z.mul_assoc, <- !Z.pow_add_r by lia.
    do 2 f_equal. unfold E in *. lia. }
  set (q1 := shr_m mrs1) in *.
  assert (Hq1lo : 0 <= q1) by (rewrite Hq1; apply Z.div_pos; lia).
  assert (Hq1T : q1 < T).
  { rewrite Hq1. apply Z.div_lt_upper_bound; [lia|]. lia. }
  assert (Hq153 : q1 < 2 ^ 53).
  { rewrite Hq1. apply Z.div_lt_upper_bound; [lia|].
    rewrite <- Z.pow_add_r by lia.
    apply Z.lt_le_trans with (m := 2 ^ d); [apply Hd|].
    apply Z.pow_le_mono_r; lia. }
  (* rounding to nearest *)
  pose proof (round_nearest_even_spec mrs1) as Hround. cbv zeta in Hround.
  fold q1 in Hround.
  set (q' := round_nearest_even q1 (loc_of_shr_record mrs1)) in *.
  assert (Hq' : 0 <= q' < T /\ q' <= 2 ^ 53).
  { destruct Hround as [-> | [-> Hr]]; [lia|].
    destruct (Hr1 Hr) as [HN1pos Hrem].
    split; [|lia]. split; [lia|].
    enough (q1 + 1 <> T) by lia. intros Heq.
    pose proof (Z.div_mod M (2 ^ N1)) as Hdm. rewrite <- Hq1 in Hdm.
    assert (Hhalf : 2 ^ N1 = 2 * 2 ^ (N1 - 1)).
    { rewrite <- Z.pow_succ_r by lia. f_equal. lia. }
    assert (Hsmall : 2 ^ (N1 - 1) <= 2 ^ 52) by (apply Z.pow_le_mono_r; lia).
    change (2 ^ 52) with 4503599627370496 in Hsmall.
    assert (HCv : Zpos C = 8725724278030336) by reflexivity.
    nia. }
  clearbody q'. clear Hround.
  (* renormalisation *)
  destruct Hq' as [[Hq'lo Hq'T] Hq'53].
  destruct (shr_fexp_exact q' e1 Hq'lo) as [(HN2 & Hq2 & _) He2].
  rewrite fexp_53 in *.
  assert (Hd2 : Zdigits2 q' <= 54).
  { destruct q' as [|p|p]; cbn [Zdigits2]; [lia| |lia].
    pose proof (digits2_pos_bounds p) as Hp.
    enough (Zpos (digits2_pos p) - 1 < 54) by lia.
    apply pow2_lt_inv; [lia|].
    apply Z.le_lt_trans with (m := Zpos p); [apply Hp|].
    change (2 ^ 54) with (2 * 2 ^ 53). lia. }
  assert (Hd2lo : 0 <= Zdigits2 q').
  { destruct q' as [|p|p]; cbn [Zdigits2]; lia. }
  set (N2 := Z.max 0 (Z.max (Zdigits2 q' + e1 - 53) (-1074) - e1)) in *.
  destruct (shr_fexp prec emax q' e1 loc_Exact) as [mrs2 e2]. cbn [fst snd] in *.
  assert (HN2up : N2 <= 1) by (unfold N2; lia).
  assert (Hp2 : 0 < 2 ^ N2) by (apply Z.pow_pos_nonneg; lia).
  assert (Hm2 : 0 <= shr_m mrs2 < 62 * 2 ^ (- e2)).
  { rewrite Hq2. split; [apply Z.div_pos; lia|].
    apply Z.div_lt_upper_bound; [lia|].
    replace (2 ^ N2 * (62 * 2 ^ (- e2))) with T; [exact Hq'T|].
    unfold T. replace (- e1) with (N2 + - e2) by lia.
    rewrite Z.pow_add_r by lia. ring. }
  destruct (shr_m mrs2) as [|m2|m2]; [exact I| |lia].
  assert (Hfin : (e2 <=? emax - prec) = true) by (apply Z.leb_le; unfold emax, prec; lia).
  rewrite Hfin. split; [lia|apply Hm2].
Qed.

Lemma unit_double_inv (r : spec_float) :
  unit_double r ->
  (exists s, r = S754_zero s) \/
  (exists m e, r = S754_finite false m e /\
     -1074 <= e <= -52 /\ Zpos m < 2 ^ 53 /\ Zpos m < 2 ^ (- e)).
Proof.
  intros (Hv & H0 & H1).
  change (SFone prec emax) with (S754_finite false 4503599627370496 (-52)) in H1.
  destruct r as [s|s| |s m e].
  - left. eauto.
  - destruct s; discriminate.
  - discriminate.
  - right. destruct s; [discriminate|]. exists m, e. split; [reflexivity|].
    cbn [valid_binary] in Hv. unfold bounded, canonical_mantissa in Hv.
    apply andb_true_iff in Hv as [Hc _]. apply Z.eqb_eq in Hc.
    rewrite fexp_53 in Hc.
    pose proof (digits2_pos_bounds m) as Hd.
    assert (Hm53 : Zpos m < 2 ^ 53).
    { apply Z.lt_le_trans with (m := 2 ^ Zpos (digits2_pos m)); [apply Hd|].
      apply Z.pow_le_mono_r; lia. }
    unfold SFltb in H1. cbn [SFcompare] in H1.
    destruct (Z.compare_spec e (-52)) as [->|Hlt|Hgt]; try discriminate.
    + split; [lia|]. split; [exact Hm53|].
      change (2 ^ (- -52)) with (Zpos 4503599627370496).
      destruct (Pos.compare_cont Eq m 4503599627370496) eqn:Hcmp; try discriminate.
      exact Hcmp.
    + split; [lia|]. split; [exact Hm53|].
      apply Z.lt_le_trans with (m := 2 ^ 53); [exact Hm53|].
      apply Z.pow_le_mono_r; lia.
Qed.

Lemma pick_index_range (r : spec_float) :
  unit_double r -> exists i, pick_index r = Some i /\ 0 <= i < 62.
Proof.
  intros Hr. unfold pick_index.
  destruct (unit_double_inv r Hr) as [[s ->] | (m & e & -> & He & Hm & Hme)].
  - exists 0. split; [reflexivity|lia].
  - pose proof (mul_62_bound m e He Hm Hme) as H.
    destruct (SFmul prec emax (S754_finite false m e) (number_of_nat (String.length chars)))
      as [s|s| |s m' e']; try contradiction.
    + exists 0. split; [reflexivity|lia].
    + destruct s; [contradiction|]. destruct H as [He' Hm'].
      exists (Z.shiftl (Zpos m') e'). split; [reflexivity|].
      rewrite Z.shiftl_div_pow2 by lia.
      assert (0 < 2 ^ (- e')) by (apply Z.pow_pos_nonneg; lia).
      split; [apply Z.div_pos; lia|].
      apply Z.div_lt_upper_bound; lia.
Qed.

End Doubles.

Section Tokens.

Lemma length_snoc (s : string) (c : ascii) :
  String.length (s ++ String c "") = S (String.length s).
Proof. induction s as [|a s IH]; simpl; [reflexivity|]. rewrite IH. reflexivity. Qed.

Lemma all_chars_snoc (p : ascii -> bool) (s : string) (c : ascii) :
  all_chars p s = true -> p c = true -> all_chars p (s ++ String c "") = true.
Proof.
  intros Hs Hc. induction s as [|a s IH]; simpl in *.
  - rewrite Hc. reflexivity.
  - apply andb_true_iff in Hs as [-> Hs]. simpl. auto.
Qed.

Lemma chars_alnum (i : Z) :
  (0 <= i < 62)%Z ->
  exists c, char_at chars (Some i) = Some c /\ is_alnum c = true.
Proof.
  intros Hi. unfold char_at.
  destruct (Z.ltb_spec i 0) as [?|_]; [lia|].
  assert (Hall : forallb
            (fun n => match String.get n chars with
                      | Some c => is_alnum c
                      | None => false
                      end) (seq 0 62) = true) by (vm_compute; reflexivity).
  rewrite forallb_forall in Hall.
  specialize (Hall (Z.to_nat i)). rewrite in_seq in Hall.
  destruct (String.get (Z.to_nat i) chars) as [c|].
  - exists c. split; [reflexivity|]. apply Hall. lia.
  - enough (false = true) by discriminate. apply Hall. lia.
Qed.

Lemma random_loop_shape (random : nat -> spec_float) (todo i : nat) (out : string) :
  unit_interval random ->
  all_chars is_alnum out = true ->
  String.length (random_loop random todo i out) = (String.length out + todo)%nat /\
  all_chars is_alnum (random_loop random todo i out) = true.
Proof.
  intros Hr. revert i out. induction todo as [|todo IH]; intros i out Hout.
  - simpl. split; [lia|assumption].
  - cbn [random_loop].
    destruct (pick_index_range _ (Hr i)) as (k & -> & Hk).
    destruct (chars_alnum k Hk) as (c & -> & Hc).
    cbn [append_char].
    destruct (IH (S i) (out ++ String c "")) as [Hlen Hall].
    { apply all_chars_snoc; assumption. }
    rewrite Hlen, length_snoc. split; [lia|assumption].
Qed.

End Tokens.

(** ** The handlers *)

Section Handlers.

Implicit Types (σ : gset string) (t : string) (r : Request).

Lemma has_true σ (v : JSValue) :
  has σ v = true <-> exists t, v = JString t /\ t ∈ σ.
Proof.
  destruct v; simpl; try (split; [discriminate | intros (? & ? & _); discriminate]).
  rewrite bool_decide_eq_true. split.
  - intros H. eauto.
  - intros (t & [= ->] & H). exact H.
Qed.

Lemma truthy_string t : truthy (JString t) = true <-> t <> "".
Proof.
  simpl. rewrite negb_true_iff. split.
  - intros H ->. discriminate.
  - intros H. apply String.eqb_neq, H.
Qed.

(** Without a body there is no token. *)
Lemma token_of_missing (req : GenerateReq) :
  body_missing req = true -> token_of req = JUndefined.
Proof.
  unfold body_missing, token_of. destruct (body req); try discriminate; reflexivity.
Qed.

Lemma paid_body σ (req : GenerateReq) :
  truthy (token_of req) && has σ (token_of req) = true ->
  body_missing req = false.
Proof.
  intros H. destruct (body_missing req) eqn:Hb; [|reflexivity].
  rewrite (token_of_missing req Hb) in H. discriminate.
Qed.

(** The destructuring of a missing body throws into the [catch]. *)
Lemma generate_bodyless σ (req : GenerateReq) :
  body_missing req = true ->
  generate σ req =
    reply 500 (Failure "Erro interno." (Some (destructure_error (body req)))) σ.
Proof. intros H. unfold generate. rewrite H. reflexivity. Qed.

(** The first check of [generate]: the payment. *)
Lemma generate_403 σ (req : GenerateReq) :
  body_missing req = false ->
  truthy (token_of req) && has σ (token_of req) = false ->
  generate σ req = reply 403 (Failure "Pagamento não confirmado." None) σ.
Proof.
  intros Hb H. unfold generate. rewrite Hb.
  destruct (truthy (token_of req)), (has σ (token_of req));
    try discriminate; reflexivity.
Qed.

(** A request that does not pass the payment check changes nothing and
    posts nothing. *)
Lemma generate_unpaid σ (req : GenerateReq) :
  truthy (token_of req) && has σ (token_of req) = false ->
  store (generate σ req) = σ /\ posted (generate σ req) = None /\
  (status (response (generate σ req)) = 403%nat \/
   status (response (generate σ req)) = 500%nat).
Proof.
  intros H. destruct (body_missing req) eqn:Hb.
  - rewrite generate_bodyless by exact Hb. repeat split. right. reflexivity.
  - rewrite generate_403 by assumption. repeat split. left. reflexivity.
Qed.

(** The second check: the prompt. *)
Lemma generate_400 σ (req : GenerateReq) :
  truthy (token_of req) && has σ (token_of req) = true ->
  valid_prompt (prompt_of req) = false ->
  generate σ req = reply 400 (Failure "Prompt inválido." None) σ.
Proof.
  intros Ht Hp. unfold generate, valid_prompt in *.
  rewrite (paid_body σ req Ht).
  apply andb_true_iff in Ht as [-> ->].
  destruct (truthy (prompt_of req)), (is_string (prompt_of req));
    try discriminate; reflexivity.
Qed.

(** Past both checks the composed prompt is posted and the reply decides. *)
Lemma generate_posted σ (req : GenerateReq) :
  truthy (token_of req) && has σ (token_of req) = true ->
  valid_prompt (prompt_of req) = true ->
  generate σ req =
    after_posting (composed req)
      match fetch req (composed req) with
      | NetworkError e => reply 500 (Failure "Erro interno." (Some e)) σ
      | Resolved resp =>
          if negb (ok resp) then
            reply 500 (Failure "Falha ao gerar imagem." (Some (text resp))) σ
          else
            match json resp with
            | inl e => reply 500 (Failure "Erro interno." (Some e)) σ
            | inr data =>
                let first := opt_get (opt_get data "data") "0" in
                let b64 := opt_get first "b64_json" in
                let url := opt_get first "url" in
                let σ' := delete σ (token_of req) in
                if truthy b64 then reply 200 (ImageData b64) σ'
                else if truthy url then reply 200 (ImageUrl url) σ'
                else reply 500 (Failure "Resposta inesperada da API." None) σ'
            end
      end.
Proof.
  intros Ht Hp. unfold generate, valid_prompt in *.
  rewrite (paid_body σ req Ht).
  apply andb_true_iff in Ht as [-> ->]. apply andb_true_iff in Hp as [-> ->].
  reflexivity.
Qed.

(** Only the composed prompt is ever posted. *)
Lemma posted_generate σ (req : GenerateReq) (p : string) :
  posted (generate σ req) = Some p -> p = composed req.
Proof.
  unfold generate.
  destruct (body_missing req); [discriminate|].
  destruct (negb _ || negb _); [discriminate|].
  destruct (negb _ || negb _); [discriminate|].
  cbn [after_posting posted]. congruence.
Qed.

(** What [generate] leaves in the store: the token goes exactly when the
    call consumes it. *)
Lemma store_generate σ (req : GenerateReq) t :
  t <> "" ->
  t ∈ store (generate σ req) <-> t ∈ σ /\ consumes t (PostGenerate req) = false.
Proof.
  intros Ht. cbn [consumes].
  destruct (truthy (token_of req) && has σ (token_of req)) eqn:Hpaid.
  2:{ destruct (generate_unpaid σ req Hpaid) as (-> & _).
      split; [|tauto]. intros Hin. split; [assumption|].
      destruct (token_of req) as [| | | |t'| |] eqn:Htok; try reflexivity.
      destruct (String.eqb_spec t t') as [<-|]; [|reflexivity].
      exfalso. apply andb_false_iff in Hpaid as [Hg|Hg].
      - apply truthy_string in Ht. congruence.
      - simpl in Hg. apply bool_decide_eq_false in Hg. tauto. }
  destruct (valid_prompt (prompt_of req)) eqn:Hp.
  2:{ rewrite generate_400 by assumption. cbn [reply store].
      rewrite andb_false_r. tauto. }
  rewrite generate_posted by assumption. cbn [after_posting store].
  apply andb_true_iff in Hpaid as [_ Hhas].
  apply has_true in Hhas as (t' & Htok & Hin'). rewrite Htok.
  rewrite andb_true_r.
  destruct (fetch req (composed req)) as [e|resp].
  { cbn [reply store]. rewrite andb_false_r. tauto. }
  destruct (ok resp); cbn [negb].
  2:{ cbn [reply store]. rewrite andb_false_r. tauto. }
  destruct (json resp) as [e|data].
  { cbn [reply store]. rewrite andb_false_r. tauto. }
  assert (Hdel : t ∈ delete σ (JString t') <-> t ∈ σ /\ (t =? t')%string && true = false).
  { cbn [delete]. rewrite andb_true_r, elem_of_difference, elem_of_singleton.
    destruct (String.eqb_spec t t'); split; intros []; split; congruence. }
  cbv zeta.
  destruct (truthy (opt_get (opt_get (opt_get data "data") "0") "b64_json"));
    [exact Hdel|].
  destruct (truthy (opt_get (opt_get (opt_get data "data") "0") "url"));
    exact Hdel.
Qed.

Lemma parsed_event (req : WebhookReq) (ev : Event) :
  parsed req = Some ev -> body_json req = Some (JsonEvent ev).
Proof.
  unfold parsed. destruct (body_json req) as [[| |ev']|]; try discriminate.
  intros [= ->]. reflexivity.
Qed.

Lemma session_token_data (ev : Event) t :
  session_token (data_object ev) = Some t ->
  exists d, data ev = Some d /\ session_token (object d) = Some t.
Proof.
  unfold data_object. destruct (data ev) as [d|]; [eauto|discriminate].
Qed.

(** What [webhook] leaves in the store. *)
Lemma store_webhook σ (req : WebhookReq) t :
  t <> "" ->
  t ∈ store (webhook σ req) <-> carries t (PostWebhook req) = true \/ t ∈ σ.
Proof.
  intros Ht. unfold webhook, constructEvent, uncaught. cbn [carries].
  unfold parsed, data_object.
  assert (Hsame : t ∈ σ <-> false = true \/ t ∈ σ)
    by (split; [tauto|intros [|]; [discriminate|assumption]]).
  destruct (signature_ok req); cbn [andb]; [|exact Hsame].
  destruct (body_json req) as [[| |ev]|]; try exact Hsame.
  fold completed.
  destruct (String.eqb (type ev) completed); cbn [andb]; [|exact Hsame].
  destruct (data ev) as [d|]; [|exact Hsame]. cbn [reply store].
  destruct (session_token (object d)) as [t'|]; cbn [truthy_token];
    [|exact Hsame].
  destruct (String.eqb_spec t' "") as [->|Hne]; cbn [negb].
  - destruct (String.eqb_spec t ""); [contradiction|exact Hsame].
  - unfold add. rewrite elem_of_union, elem_of_singleton.
    destruct (String.eqb_spec t t'); split; intros [|]; auto; discriminate.
Qed.

(** One request: a token is in the store afterwards when the request
    carried it in, or it was there and the request did not consume it. *)
Lemma store_handle σ r t :
  t <> "" ->
  t ∈ store (handle σ r) <->
  carries t r = true \/ (t ∈ σ /\ consumes t r = false).
Proof.
  intros Ht. destruct r as [|req| | |tok|req|req]; cbn [handle].
  - cbn. intuition discriminate.
  - unfold pagar. destruct (create_session req _); cbn; intuition discriminate.
  - cbn. intuition discriminate.
  - cbn. intuition discriminate.
  - unfold criar. destruct (negb _); cbn; intuition discriminate.
  - rewrite store_generate by assumption. cbn [carries]. intuition discriminate.
  - rewrite store_webhook by assumption. cbn [consumes]. intuition discriminate.
Qed.

Lemma run_snoc σ (trace : list Request) r :
  run σ (trace ++ [r]) = store (handle (run σ trace) r).
Proof.
  revert σ. induction trace as [|r0 trace IH]; intros σ; [reflexivity|].
  simpl. apply IH.
Qed.

Lemma paid_unconsumed_nil t : ~ paid_unconsumed t [].
Proof.
  intros (before & r & after & H & _). destruct before; discriminate.
Qed.

Lemma paid_unconsumed_snoc t (trace : list Request) r :
  paid_unconsumed t (trace ++ [r]) <->
  carries t r = true \/ (paid_unconsumed t trace /\ consumes t r = false).
Proof.
  split.
  - intros (before & r0 & after & Heq & Hc & Hafter).
    destruct after as [|x after _] using rev_ind.
    + apply app_inj_tail in Heq as [_ ->]. left. exact Hc.
    + right. rewrite app_comm_cons, app_assoc in Heq.
      apply app_inj_tail in Heq as [-> ->]. split.
      * exists before, r0, after. split; [reflexivity|]. split; [exact Hc|].
        intros r' Hr'. apply Hafter. set_solver.
      * apply Hafter. set_solver.
  - intros [Hc | [(before & r0 & after & -> & Hc & Hafter) Hr]].
    + exists trace, r, []. split; [reflexivity|]. split; [exact Hc|].
      intros r' Hr'. set_solver.
    + exists before, r0, (after ++ [r])%list. split.
      { rewrite <- app_assoc. reflexivity. }
      split; [exact Hc|]. intros r' Hr'.
      apply elem_of_app in Hr' as [Hr'|Hr']; [auto|].
      apply list_elem_of_singleton in Hr' as ->. exact Hr.
Qed.

(** The store never holds the empty string. *)
Lemma handle_nonempty σ r : "" ∉ σ -> "" ∉ store (handle σ r).
Proof.
  intros H. destruct r as [|req| | |tok|req|req]; cbn [handle];
    try exact H.
  - unfold pagar. destruct (create_session req _); exact H.
  - unfold criar. destruct (negb _); exact H.
  - unfold generate.
    destruct (body_missing req); [exact H|].
    destruct (negb _ || negb _); [exact H|].
    destruct (negb _ || negb _); [exact H|].
    cbn [after_posting store].
    destruct (fetch req _) as [e|resp]; [exact H|].
    destruct (negb (ok resp)); [exact H|].
    destruct (json resp) as [e|data]; [exact H|].
    assert (Hd : "" ∉ delete σ (token_of req)).
    { unfold delete. destruct (token_of req); try exact H.
      intros [Hin _]%elem_of_difference. exact (H Hin). }
    cbv zeta. destruct (truthy _); [exact Hd|]. destruct (truthy _); exact Hd.
  - unfold webhook, uncaught.
    destruct (constructEvent req) as [msg|[| |ev]]; try exact H.
    destruct (String.eqb _ _); [|exact H].
    destruct (data ev) as [d|]; [|exact H]. cbn [reply store].
    destruct (session_token _) as [t|]; cbn [truthy_token]; [|exact H].
    destruct (String.eqb_spec t ""); cbn [negb]; [exact H|].
    unfold add. rewrite elem_of_union, elem_of_singleton.
    intros [Heq|Hin]; [congruence|exact (H Hin)].
Qed.

Lemma run_nonempty (trace : list Request) σ : "" ∉ σ -> "" ∉ run σ trace.
Proof.
  revert σ. induction trace as [|r trace IH]; intros σ H; [exact H|].
  simpl. apply IH, handle_nonempty, H.
Qed.

Lemma reachable_nonempty σ : reachable σ -> "" ∉ σ.
Proof.
  intros [trace <-]. apply run_nonempty. set_solver.
Qed.

(** In a reachable store membership already implies a truthy token. *)
Lemma reachable_paid σ (v : JSValue) :
  reachable σ -> has σ v = true -> truthy v && has σ v = true.
Proof.
  intros Hr Hh. rewrite Hh, andb_true_r.
  apply has_true in Hh as (t & -> & Hin). apply truthy_string.
  intros ->. exact (reachable_nonempty _ Hr Hin).
Qed.

(** The scenario of the specification: the webhook for ["T1"] opens
    [/criar?token=T1], one generation call returns an image, and the same
    call again is refused. *)
Example scenario_T1 :
  status (response (criar store_T1 (JString "T1"))) = 200%nat /\
  response (generate store_T1 generate_image_reply) =
    {| status := 200; payload := ImageData (JString "iVBORw0KGgo=") |} /\
  status (response (generate (store (generate store_T1 generate_image_reply))
                      generate_image_reply)) = 403%nat.
Proof. split; [|split]; vm_compute; reflexivity. Qed.

End Handlers.

(** ** The specification, claim by claim *)

Section Claims.

Ltac status_differs := cbn [reply response status]; lia.

Implicit Types (σ : gset string) (t : string).

(** C1. In every reachable state a token is in the token store exactly when
    a signature-verified [checkout.session.completed] webhook carrying it
    has been processed and no generation call has consumed it since. A
    token is a string that is not empty. *)
Theorem token_store_invariant (trace : list Request) t :
  t <> "" -> (t ∈ run ∅ trace <-> paid_unconsumed t trace).
Proof.
  intros Ht. induction trace as [|r trace IH] using rev_ind.
  - simpl. split.
    + intros H. exfalso. revert H. apply not_elem_of_empty.
    + intros H. exfalso. exact (paid_unconsumed_nil _ H).
  - rewrite run_snoc, store_handle, paid_unconsumed_snoc by assumption.
    rewrite IH. reflexivity.
Qed.

Lemma token_store_invariant_witness :
  "T1" <> "" /\
  ("T1" ∈ run ∅ [PostWebhook (paid_webhook "T1"); PostGenerate generate_html_reply]
   <-> paid_unconsumed "T1"
         [PostWebhook (paid_webhook "T1"); PostGenerate generate_html_reply]).
Proof.
  split; [discriminate|].
  apply (token_store_invariant
           [PostWebhook (paid_webhook "T1"); PostGenerate generate_html_reply] "T1").
  discriminate.
Defined.




(** C3, as stated, fails: with the token ["T1"] paid for, a valid prompt and
    an upstream reply of success status whose body is not JSON, [resp.json()]
    rejects before [paidTokens.delete] is reached; the answer is 500 and the
    token is still in the store. *)
Lemma generate_keeps_token_on_unparsable_reply :
  reachable store_T1 /\
  has store_T1 (token_of generate_html_reply) = true /\
  valid_prompt (prompt_of generate_html_reply) = true /\
  (exists resp, fetch generate_html_reply (composed generate_html_reply) = Resolved resp
                /\ ok resp = true) /\
  status (response (generate store_T1 generate_html_reply)) = 500%nat /\
  has (store (generate store_T1 generate_html_reply))
      (token_of generate_html_reply) = true.
Proof.
  split; [exists [PostWebhook (paid_webhook "T1")]; reflexivity|].
  split; [vm_compute; reflexivity|].
  split; [reflexivity|].
  split; [eexists; split; reflexivity|].
  split; vm_compute; reflexivity.
Qed.

(** C3, amended. A generation call with a token of the store, a valid
    prompt and an upstream reply of success status whose body parses as
    JSON removes the token from the store, also when the body has neither a
    [b64_json] nor a [url] field, in which case the answer is 500. *)
Theorem generate_consumes_token σ (req : GenerateReq) (resp : UpstreamReply)
    (data : JSValue) :
  reachable σ ->
  has σ (token_of req) = true ->
  valid_prompt (prompt_of req) = true ->
  fetch req (composed req) = Resolved resp ->
  ok resp = true ->
  json resp = inr data ->
  has (store (generate σ req)) (token_of req) = false /\
  store (generate σ req) = delete σ (token_of req) /\
  (opt_get (opt_get (opt_get data "data") "0") "b64_json" = JUndefined ->
   opt_get (opt_get (opt_get data "data") "0") "url" = JUndefined ->
   status (response (generate σ req)) = 500%nat).
Proof.
  intros Hr Hh Hp Hf Hok Hj.
  rewrite generate_posted by (try apply reachable_paid; assumption).
  rewrite Hf, Hok, Hj. cbn [negb]. cbv zeta.
  assert (Hs : forall o1 o2 o3 : Response,
    store (after_posting (composed req)
      (if truthy (opt_get (opt_get (opt_get data "data") "0") "b64_json")
       then {| response := o1; store := delete σ (token_of req); posted := None |}
       else if truthy (opt_get (opt_get (opt_get data "data") "0") "url")
       then {| response := o2; store := delete σ (token_of req); posted := None |}
       else {| response := o3; store := delete σ (token_of req); posted := None |}))
    = delete σ (token_of req)).
  { intros. destruct (truthy _); [reflexivity|]. destruct (truthy _); reflexivity. }
  unfold reply. rewrite Hs. split; [|split; [reflexivity|]].
  - apply has_true in Hh as (t & -> & _). cbn [delete has].
    apply bool_decide_eq_false. rewrite elem_of_difference, elem_of_singleton.
    tauto.
  - intros -> ->. reflexivity.
Qed.

Lemma generate_consumes_token_witness :
  reachable store_T1 /\
  has store_T1 (token_of generate_empty_reply) = true /\
  valid_prompt (prompt_of generate_empty_reply) = true /\
  has (store (generate store_T1 generate_empty_reply))
      (token_of generate_empty_reply) = false /\
  status (response (generate store_T1 generate_empty_reply)) = 500%nat.
Proof.
  assert (Hr : reachable store_T1)
    by (exists [PostWebhook (paid_webhook "T1")]; reflexivity).
  assert (Hh : has store_T1 (token_of generate_empty_reply) = true)
    by (vm_compute; reflexivity).
  destruct (generate_consumes_token store_T1 generate_empty_reply
              {| ok := true; text := "{}"; json := inr (JObject []) |}
              (JObject []) Hr Hh eq_refl eq_refl eq_refl eq_refl)
    as (Hgone & _ & H500).
  split; [exact Hr|]. split; [exact Hh|]. split; [reflexivity|].
  split; [exact Hgone|]. apply H500; reflexivity.
Defined.

(** C4. A webhook request whose signature does not verify is answered 400
    and leaves the token store as it was; nothing of the payload is looked
    at, so two such requests with the same error message have the same
    outcome whatever their bodies parse to. *)
Theorem webhook_rejects_bad_signature σ (req : WebhookReq) :
  signature_ok req = false ->
  status (response (webhook σ req)) = 400%nat /\
  store (webhook σ req) = σ /\
  forall req' : WebhookReq,
    signature_ok req' = false -> error_message req' = error_message req ->
    webhook σ req' = webhook σ req.
Proof.
  intros H. unfold webhook, constructEvent. rewrite H.
  split; [reflexivity|]. split; [reflexivity|].
  intros req' -> ->. reflexivity.
Qed.

Lemma webhook_rejects_bad_signature_witness :
  signature_ok forged_webhook = false /\
  status (response (webhook ∅ forged_webhook)) = 400%nat /\
  store (webhook ∅ forged_webhook) = ∅.
Proof.
  split; [reflexivity|].
  destruct (webhook_rejects_bad_signature ∅ forged_webhook eq_refl)
    as (Hstatus & Hstore & _).
  split; assumption.
Defined.

(** C5. For the prompt ["minecraft castle"] the prompt posted to the image
    API contains ["pixel fantasy castle"] and not ["minecraft"]. In general
    the substitution scans the prompt from the left, puts the neutral phrase
    in place of each match of a denylisted word in any case and copies the
    rest, so that no denylisted word is left, in any case, in the sanitized
    prompt or in the prompt composed from it and posted. *)
Theorem denylist_substitution :
  (forall σ (req : GenerateReq),
     truthy (token_of req) && has σ (token_of req) = true ->
     prompt_of req = JString "minecraft castle" ->
     exists p, posted (generate σ req) = Some p /\
               includes p "pixel fantasy castle" = true /\
               includes p "minecraft" = false) /\
  (forall w s, w ∈ denylist -> prefix_ci w s = true ->
     replace_denylist s =
       neutral ++ replace_denylist (Str.drop (String.length w) s)) /\
  (forall c s, (forall w, w ∈ denylist -> prefix_ci w (String c s) = false) ->
     replace_denylist (String c s) = String c (replace_denylist s)) /\
  (forall w prompt, w ∈ denylist ->
     occurs_ci w (safePrompt prompt) = false /\
     occurs_ci w (finalPrompt (safePrompt prompt)) = false) /\
  (forall σ (req : GenerateReq) p w,
     posted (generate σ req) = Some p -> w ∈ denylist ->
     occurs_ci w p = false /\ includes p w = false).
Proof.
  split; [|split; [|split; [|split]]].
  - intros σ req Hpaid Hp. exists (composed req).
    rewrite generate_posted by (try rewrite Hp; done).
    split; [reflexivity|]. unfold composed. rewrite Hp.
    split; vm_compute; reflexivity.
  - exact replace_at_match.
  - exact replace_at_other.
  - intros w prompt Hin. split.
    + apply safePrompt_clean, Hin.
    + apply finalPrompt_clean, safePrompt_clean; exact Hin.
  - intros σ req p w Hp Hin. apply posted_generate in Hp as ->.
    assert (H : occurs_ci w (composed req) = false)
      by (apply finalPrompt_clean, safePrompt_clean; exact Hin).
    split; [exact H|]. apply includes_occurs_ci, H.
Qed.

Lemma denylist_substitution_witness :
  truthy (token_of generate_minecraft) && has store_T1 (token_of generate_minecraft)
    = true /\
  prompt_of generate_minecraft = JString "minecraft castle" /\
  (exists p, posted (generate store_T1 generate_minecraft) = Some p /\
             includes p "pixel fantasy castle" = true /\
             includes p "minecraft" = false) /\
  prefix_ci "skywars" "SkyWars arena" = true /\
  replace_denylist "SkyWars arena" = (neutral ++ replace_denylist " arena")%string.
Proof.
  assert (Hg : truthy (token_of generate_minecraft)
               && has store_T1 (token_of generate_minecraft) = true)
    by (vm_compute; reflexivity).
  assert (Hin : "skywars" ∈ denylist)
    by (unfold denylist; apply list_elem_of_further, list_elem_of_here).
  destruct denylist_substitution as (Hscenario & Hmatch & _).
  split; [exact Hg|]. split; [reflexivity|].
  split; [exact (Hscenario store_T1 generate_minecraft Hg eq_refl)|].
  split; [reflexivity|].
  exact (Hmatch "skywars" "SkyWars arena" Hin eq_refl).
Defined.

(** C6. Every token of [makeToken] is a string of exactly 32 characters,
    each of them a letter or a digit, whatever doubles at least zero and
    below one [Math.random] draws. *)
Theorem makeToken_shape (random : nat -> spec_float) :
  unit_interval random ->
  String.length (makeToken random) = 32%nat /\
  all_chars is_alnum (makeToken random) = true.
Proof.
  intros Hr. unfold makeToken, cryptoRandomString.
  destruct (random_loop_shape random 32 0 "" Hr eq_refl) as [Hlen Hall].
  split; assumption.
Qed.

Lemma makeToken_shape_witness :
  unit_interval sample_draws /\
  String.length (makeToken sample_draws) = 32%nat /\
  all_chars is_alnum (makeToken sample_draws) = true.
Proof.
  assert (H : unit_interval sample_draws).
  { intros i. unfold sample_draws.
    destruct (i mod 4)%nat as [|[|[|[|[|n]]]]]; cbn [nth];
      (split; [|split]); reflexivity. }
  split; [exact H|]. exact (makeToken_shape sample_draws H).
Defined.

(** C7. A generation request whose token is in the token store and whose
    prompt is missing or is not a string is answered 400. *)
Theorem generate_rejects_bad_prompt σ (req : GenerateReq) :
  reachable σ ->
  has σ (token_of req) = true ->
  prompt_of req = JUndefined \/ is_string (prompt_of req) = false ->
  status (response (generate σ req)) = 400%nat /\ store (generate σ req) = σ.
Proof.
  intros Hr Hh Hp. rewrite generate_400; [split; reflexivity| |].
  - apply reachable_paid; assumption.
  - unfold valid_prompt. destruct Hp as [-> | ->]; [reflexivity|apply andb_false_r].
Qed.

Lemma generate_rejects_bad_prompt_witness :
  reachable store_T1 /\
  has store_T1 (token_of generate_no_prompt) = true /\
  (prompt_of generate_no_prompt = JUndefined \/
   is_string (prompt_of generate_no_prompt) = false) /\
  status (response (generate store_T1 generate_no_prompt)) = 400%nat /\
  store (generate store_T1 generate_no_prompt) = store_T1.
Proof.
  assert (Hr : reachable store_T1)
    by (exists [PostWebhook (paid_webhook "T1")]; reflexivity).
  assert (Hh : has store_T1 (token_of generate_no_prompt) = true)
    by (vm_compute; reflexivity).
  split; [exact Hr|]. split; [exact Hh|]. split; [left; reflexivity|].
  apply (generate_rejects_bad_prompt store_T1 generate_no_prompt Hr Hh).
  left. reflexivity.
Defined.

(** C8. A signature-verified webhook whose event is of another type than
    [checkout.session.completed] leaves the token store as it was and is
    answered 200 with [{ received: true }]. *)
Theorem webhook_ignores_other_events σ (req : WebhookReq) (ev : Event) :
  signature_ok req = true ->
  parsed req = Some ev ->
  type ev <> completed ->
  store (webhook σ req) = σ /\
  response (webhook σ req) = {| status := 200; payload := Received |}.
Proof.
  intros Hs Hp Ht. unfold webhook, constructEvent.
  rewrite Hs, (parsed_event _ _ Hp).
  fold completed. apply String.eqb_neq in Ht. rewrite Ht.
  split; reflexivity.
Qed.

Lemma webhook_ignores_other_events_witness :
  signature_ok refund_webhook = true /\
  parsed refund_webhook = Some refund_event /\
  type refund_event <> completed /\
  store (webhook store_T1 refund_webhook) = store_T1 /\
  response (webhook store_T1 refund_webhook) = {| status := 200; payload := Received |}.
Proof.
  split; [reflexivity|]. split; [reflexivity|]. split; [discriminate|].
  apply (webhook_ignores_other_events store_T1 refund_webhook refund_event);
    [reflexivity|reflexivity|discriminate].
Defined.

(** C9. When the token and the prompt are valid and the image API answers
    with a status that is not a success, the answer is 500 with the text of
    the upstream reply, and the token stays in the store: a later call with
    the same token passes the payment check again. *)
Theorem generate_upstream_failure σ (req : GenerateReq) (resp : UpstreamReply) :
  truthy (token_of req) && has σ (token_of req) = true ->
  valid_prompt (prompt_of req) = true ->
  fetch req (composed req) = Resolved resp ->
  ok resp = false ->
  response (generate σ req) =
    {| status := 500;
       payload := Failure "Falha ao gerar imagem." (Some (text resp)) |} /\
  store (generate σ req) = σ /\
  has (store (generate σ req)) (token_of req) = true /\
  forall req' : GenerateReq,
    token_of req' = token_of req ->
    status (response (generate (store (generate σ req)) req')) <> 403%nat.
Proof.
  intros Hpaid Hp Hf Hok.
  rewrite generate_posted by assumption. rewrite Hf, Hok.
  cbn [negb after_posting reply response store].
  pose proof Hpaid as Hg. apply andb_true_iff in Hg as [_ Hh].
  split; [reflexivity|]. split; [reflexivity|]. split; [exact Hh|].
  intros req' Heq.
  destruct (valid_prompt (prompt_of req')) eqn:Hp'.
  - rewrite generate_posted by (try rewrite Heq; assumption).
    cbn [after_posting response].
    destruct (fetch req' _) as [e|r]; [status_differs|].
    destruct (negb (ok r)); [status_differs|].
    destruct (json r); [status_differs|]. cbv zeta.
    destruct (truthy (opt_get _ "b64_json")); [status_differs|].
    destruct (truthy (opt_get _ "url")); status_differs.
  - rewrite generate_400 by (try rewrite Heq; assumption). status_differs.
Qed.

Lemma generate_upstream_failure_witness :
  truthy (token_of generate_refused) && has store_T1 (token_of generate_refused)
    = true /\
  valid_prompt (prompt_of generate_refused) = true /\
  response (generate store_T1 generate_refused) =
    {| status := 500;
       payload := Failure "Falha ao gerar imagem." (Some "rate limited") |} /\
  store (generate store_T1 generate_refused) = store_T1.
Proof.
  assert (Hg : truthy (token_of generate_refused)
               && has store_T1 (token_of generate_refused) = true)
    by (vm_compute; reflexivity).
  destruct (generate_upstream_failure store_T1 generate_refused
              {| ok := false; text := "rate limited";
                 json := inl "SyntaxError: Unexpected token r" |}
              Hg eq_refl eq_refl eq_refl) as (Hresp & Hstore & _).
  split; [exact Hg|]. split; [reflexivity|]. split; [exact Hresp|exact Hstore].
Defined.




End Claims.

(** ** Beyond the claims: the other handlers and how they compose *)

Import Template Ledger.

Section Pages.

Implicit Types (σ : gset string) (t : string).

Lemma generate_not_403 σ (req : GenerateReq) :
  truthy (token_of req) && has σ (token_of req) = true ->
  status (response (generate σ req)) <> 403%nat.
Proof.
  intros Hpaid. destruct (valid_prompt (prompt_of req)) eqn:Hp.
  - rewrite generate_posted by assumption. cbn [after_posting response].
    destruct (fetch req _) as [e|r]; [cbn [reply response status]; lia|].
    destruct (negb (ok r)); [cbn [reply response status]; lia|].
    destruct (json r); [cbn [reply response status]; lia|]. cbv zeta.
    destruct (truthy (opt_get _ "b64_json")); [cbn [reply response status]; lia|].
    destruct (truthy (opt_get _ "url")); cbn [reply response status]; lia.
  - rewrite generate_400 by assumption. cbn [reply response status]. lia.
Qed.

(** X1. [GET /criar] renders the creation page, with the token handed to
    the view, exactly when the [token] of the query is a non-empty string of
    the token store; any other query value (absent, empty, an array, an
    unknown token) is answered 403. The store is never changed. *)
Theorem criar_serves_iff σ (v : JSValue) :
  (status (response (criar σ v)) = 200%nat <->
     exists t, v = JString t /\ t <> "" /\ t ∈ σ) /\
  (status (response (criar σ v)) = 200%nat ->
     payload (response (criar σ v)) = View "criar" (Some v)) /\
  (status (response (criar σ v)) = 200%nat \/
   status (response (criar σ v)) = 403%nat) /\
  store (criar σ v) = σ.
Proof.
  unfold criar.
  destruct (truthy v && has σ v) eqn:Hpaid; cbn [negb reply response status store payload].
  - apply andb_true_iff in Hpaid as [Ht Hh].
    apply has_true in Hh as (t & -> & Hin). apply truthy_string in Ht.
    split; [|split; [reflexivity|split; [left; reflexivity|reflexivity]]].
    split; [intros _; exists t; auto|reflexivity].
  - split; [|split; [intros H; lia|split; [right; reflexivity|reflexivity]]].
    split; [intros H; lia|]. intros (t & -> & Ht & Hin). exfalso.
    apply truthy_string in Ht. cbn [has] in Hpaid.
    rewrite Ht in Hpaid. cbn [andb] in Hpaid.
    apply bool_decide_eq_false in Hpaid. contradiction.
Qed.

(** X2. The creation page and the generation endpoint agree on who has
    paid, for requests that have a body: for the same store and token,
    [GET /criar] answers 200 exactly when [POST /api/generate] has a parsed
    body and does not answer 403. Without a body the token is absent, the
    page is refused with 403 and the endpoint answers 500. *)
Theorem criar_agrees_with_generate σ (req : GenerateReq) :
  (status (response (criar σ (token_of req))) = 200%nat <->
   body_missing req = false /\
   status (response (generate σ req)) <> 403%nat) /\
  (body_missing req = true ->
   status (response (criar σ (token_of req))) = 403%nat /\
   status (response (generate σ req)) = 500%nat).
Proof.
  split.
  - unfold criar.
    destruct (truthy (token_of req) && has σ (token_of req)) eqn:Hpaid;
      cbn [negb reply response status].
    + split; [|reflexivity]. intros _.
      split; [exact (paid_body σ req Hpaid)|apply generate_not_403, Hpaid].
    + split; [intros H; lia|]. intros [Hb H]. exfalso. apply H.
      rewrite generate_403 by assumption. reflexivity.
  - intros Hb. rewrite generate_bodyless by exact Hb.
    unfold criar. rewrite (token_of_missing req Hb). split; reflexivity.
Qed.

(** X3. The generation endpoint never calls the image API for a request it
    rejects: whenever a prompt is posted upstream, the token was a member of
    the store, the prompt was a non-empty string, and what is posted is the
    prompt composed from it. *)
Theorem generate_posts_only_when_paid σ (req : GenerateReq) (p : string) :
  posted (generate σ req) = Some p ->
  has σ (token_of req) = true /\
  valid_prompt (prompt_of req) = true /\
  p = composed req /\
  status (response (generate σ req)) <> 403%nat /\
  status (response (generate σ req)) <> 400%nat.
Proof.
  intros Hp.
  destruct (truthy (token_of req) && has σ (token_of req)) eqn:Hpaid.
  2:{ destruct (generate_unpaid σ req Hpaid) as (_ & Hnone & _). congruence. }
  destruct (valid_prompt (prompt_of req)) eqn:Hv.
  2:{ rewrite generate_400 in Hp by assumption. discriminate. }
  pose proof (posted_generate _ _ _ Hp) as ->.
  apply andb_true_iff in Hpaid as [Ht Hh].
  split; [exact Hh|]. split; [reflexivity|]. split; [reflexivity|].
  rewrite generate_posted
    by (first [assumption | rewrite Ht, Hh; reflexivity]).
  cbn [after_posting response].
  destruct (fetch req _) as [e|r]; [cbn [reply response status]; lia|].
  destruct (negb (ok r)); [cbn [reply response status]; lia|].
  destruct (json r); [cbn [reply response status]; lia|]. cbv zeta.
  destruct (truthy (opt_get _ "b64_json")); [cbn [reply response status]; lia|].
  destruct (truthy (opt_get _ "url")); cbn [reply response status]; lia.
Qed.

Lemma generate_posts_only_when_paid_witness :
  posted (generate store_T1 generate_image_reply)
    = Some (composed generate_image_reply) /\
  has store_T1 (token_of generate_image_reply) = true /\
  valid_prompt (prompt_of generate_image_reply) = true.
Proof.
  assert (Hp : posted (generate store_T1 generate_image_reply)
               = Some (composed generate_image_reply))
    by (vm_compute; reflexivity).
  destruct (generate_posts_only_when_paid store_T1 generate_image_reply _ Hp)
    as (Hh & Hv & _).
  split; [exact Hp|]. split; [exact Hh|exact Hv].
Defined.

End Pages.

Section OneShot.

Implicit Types (σ : gset string) (t : string).

(** What an answer 200 of [generate] means. *)
Lemma generate_200 σ (req : GenerateReq) :
  status (response (generate σ req)) = 200%nat ->
  exists resp data,
    truthy (token_of req) && has σ (token_of req) = true /\
    valid_prompt (prompt_of req) = true /\
    fetch req (composed req) = Resolved resp /\ ok resp = true /\
    json resp = inr data /\
    store (generate σ req) = delete σ (token_of req) /\
    let first := opt_get (opt_get data "data") "0" in
    (truthy (opt_get first "b64_json") = true /\
     payload (response (generate σ req)) = ImageData (opt_get first "b64_json"))
    \/
    (truthy (opt_get first "b64_json") = false /\
     truthy (opt_get first "url") = true /\
     payload (response (generate σ req)) = ImageUrl (opt_get first "url")).
Proof.
  intros H.
  destruct (truthy (token_of req) && has σ (token_of req)) eqn:Hpaid.
  2:{ destruct (generate_unpaid σ req Hpaid) as (_ & _ & [H'|H']); lia. }
  destruct (valid_prompt (prompt_of req)) eqn:Hv.
  2:{ rewrite generate_400 in H by assumption. cbn in H. lia. }
  rewrite generate_posted in * by assumption.
  cbn [after_posting response store] in *.
  destruct (fetch req (composed req)) as [e|resp] eqn:Hf; [cbn in H; lia|].
  destruct (ok resp) eqn:Hok; cbn [negb] in *; [|cbn in H; lia].
  destruct (json resp) as [e|data] eqn:Hj; [cbn in H; lia|].
  exists resp, data. cbv zeta in *.
  split; [reflexivity|]. split; [reflexivity|]. split; [reflexivity|].
  split; [exact Hok|]. split; [exact Hj|].
  destruct (truthy (opt_get (opt_get (opt_get data "data") "0") "b64_json")).
  { split; [reflexivity|]. left. split; reflexivity. }
  destruct (truthy (opt_get (opt_get (opt_get data "data") "0") "url")).
  { split; [reflexivity|]. right. repeat split; reflexivity. }
  cbn in H. lia.
Qed.

Lemma has_delete σ (v : JSValue) : has (delete σ v) v = false.
Proof.
  destruct v; try reflexivity. cbn [delete has].
  apply bool_decide_eq_false. rewrite elem_of_difference, elem_of_singleton.
  tauto.
Qed.

(** X4. An answer 200 of [POST /api/generate] always carries an image and
    always costs the token: the upstream reply was a success with a JSON
    body, the payload is the data URI of its [b64_json] when that is truthy
    (also when a [url] is present as well) and its [url] otherwise, and the
    token is no longer in the store. *)
Theorem generate_image_costs_token σ (req : GenerateReq) :
  status (response (generate σ req)) = 200%nat ->
  has (store (generate σ req)) (token_of req) = false /\
  exists resp data,
    fetch req (composed req) = Resolved resp /\ ok resp = true /\
    json resp = inr data /\
    let first := opt_get (opt_get data "data") "0" in
    (truthy (opt_get first "b64_json") = true /\
     payload (response (generate σ req)) = ImageData (opt_get first "b64_json"))
    \/
    (truthy (opt_get first "b64_json") = false /\
     truthy (opt_get first "url") = true /\
     payload (response (generate σ req)) = ImageUrl (opt_get first "url")).
Proof.
  intros H.
  destruct (generate_200 σ req H)
    as (resp & data & _ & _ & Hf & Hok & Hj & Hs & Hkind).
  split; [rewrite Hs; apply has_delete|].
  exists resp, data. auto.
Qed.

Lemma generate_image_costs_token_witness :
  status (response (generate store_T1 generate_both_fields)) = 200%nat /\
  has (store (generate store_T1 generate_both_fields))
      (token_of generate_both_fields) = false /\
  payload (response (generate store_T1 generate_both_fields))
    = ImageData (JString "iVBORw0KGgo=").
Proof.
  assert (H : status (response (generate store_T1 generate_both_fields)) = 200%nat)
    by (vm_compute; reflexivity).
  destruct (generate_image_costs_token store_T1 generate_both_fields H)
    as (Hgone & _).
  split; [exact H|]. split; [exact Hgone|]. vm_compute. reflexivity.
Defined.

(** X5. A generation call leaves every other token alone: whatever the
    request and the upstream reply, a token other than the one presented is
    in the store afterwards exactly when it was before, and no call ever
    adds a token. *)
Theorem generate_spares_other_tokens σ (req : GenerateReq) t :
  token_of req <> JString t ->
  (t ∈ store (generate σ req) <-> t ∈ σ) /\
  store (generate σ req) ⊆ σ.
Proof.
  intros Hne.
  assert (Hcases : store (generate σ req) = σ \/
                   store (generate σ req) = delete σ (token_of req)).
  { unfold generate.
    destruct (body_missing req); [left; reflexivity|].
    destruct (negb _ || negb _); [left; reflexivity|].
    destruct (negb _ || negb _); [left; reflexivity|].
    cbn [after_posting store].
    destruct (fetch req _) as [e|resp]; [left; reflexivity|].
    destruct (negb (ok resp)); [left; reflexivity|].
    destruct (json resp) as [e|data]; [left; reflexivity|]. cbv zeta.
    destruct (truthy (opt_get _ "b64_json")); [right; reflexivity|].
    destruct (truthy (opt_get _ "url")); right; reflexivity. }
  destruct Hcases as [-> | ->]; [split; [tauto|done]|].
  destruct (token_of req) as [| | | |t'| |]; cbn [delete];
    try (split; [tauto|done]).
  split.
  - rewrite elem_of_difference, elem_of_singleton.
    split; [tauto|]. intros Hin. split; [exact Hin|]. congruence.
  - intros x. rewrite elem_of_difference. tauto.
Qed.

Lemma generate_spares_other_tokens_witness :
  token_of generate_image_reply <> JString "T2" /\
  ("T2" ∈ store (generate ({[ "T2" ]} ∪ store_T1) generate_image_reply)
   <-> "T2" ∈ ({[ "T2" ]} ∪ store_T1 : gset string)).
Proof.
  split; [discriminate|].
  apply (generate_spares_other_tokens
           ({[ "T2" ]} ∪ store_T1) generate_image_reply "T2").
  discriminate.
Defined.

(** X6. A token buys one generation: once a call has consumed it (a valid
    prompt met by a success reply with a JSON body, whether or not an image
    came of it), any further call with the same token is answered 403, and
    so is the creation page. *)
Theorem consumed_token_is_refused σ (req req' : GenerateReq)
    (resp : UpstreamReply) (data : JSValue) :
  truthy (token_of req) && has σ (token_of req) = true ->
  valid_prompt (prompt_of req) = true ->
  fetch req (composed req) = Resolved resp ->
  ok resp = true ->
  json resp = inr data ->
  token_of req' = token_of req ->
  status (response (generate (store (generate σ req)) req')) = 403%nat /\
  store (generate (store (generate σ req)) req') = store (generate σ req) /\
  status (response (criar (store (generate σ req)) (token_of req))) = 403%nat.
Proof.
  intros Hpaid Hv Hf Hok Hj Heq.
  assert (Hs : store (generate σ req) = delete σ (token_of req)).
  { rewrite generate_posted by assumption. rewrite Hf, Hok, Hj.
    cbn [negb after_posting store]. cbv zeta.
    destruct (truthy (opt_get _ "b64_json")); [reflexivity|].
    destruct (truthy (opt_get _ "url")); reflexivity. }
  rewrite Hs.
  assert (Hgone : has (delete σ (token_of req)) (token_of req) = false)
    by apply has_delete.
  rewrite generate_403;
    [|apply (paid_body σ); rewrite Heq; exact Hpaid
     |rewrite Heq, Hgone; apply andb_false_r].
  split; [reflexivity|]. split; [reflexivity|].
  unfold criar. rewrite Hgone, andb_false_r. reflexivity.
Qed.

Lemma consumed_token_is_refused_witness :
  truthy (token_of generate_empty_reply)
    && has store_T1 (token_of generate_empty_reply) = true /\
  status (response (generate store_T1 generate_empty_reply)) = 500%nat /\
  status (response (generate (store (generate store_T1 generate_empty_reply))
                      generate_image_reply)) = 403%nat.
Proof.
  assert (Hpaid : truthy (token_of generate_empty_reply)
                  && has store_T1 (token_of generate_empty_reply) = true)
    by (vm_compute; reflexivity).
  destruct (consumed_token_is_refused store_T1 generate_empty_reply
              generate_image_reply
              {| ok := true; text := "{}"; json := inr (JObject []) |}
              (JObject []) Hpaid eq_refl eq_refl eq_refl eq_refl eq_refl)
    as (H403 & _).
  split; [exact Hpaid|]. split; [vm_compute; reflexivity|exact H403].
Defined.

End OneShot.

Section Payments.

Implicit Types (σ : gset string) (t : string).

Lemma webhook_adds σ (w : WebhookReq) (ev : Event) t :
  signature_ok w = true -> parsed w = Some ev -> type ev = completed ->
  session_token (data_object ev) = Some t -> t <> "" ->
  webhook σ w = reply 200 Received ({[t]} ∪ σ).
Proof.
  intros Hs Hp Ht Htok Hne. unfold webhook, constructEvent.
  destruct (session_token_data ev t Htok) as (d & Hd & Hobj).
  rewrite Hs, (parsed_event _ _ Hp). fold completed.
  rewrite Ht, String.eqb_refl, Hd. cbv zeta. rewrite Hobj.
  cbn [truthy_token]. apply String.eqb_neq in Hne. rewrite Hne. reflexivity.
Qed.

(** X7. A verified [checkout.session.completed] webhook with a non-empty
    token grants exactly that token, from any state: afterwards the store
    is the old one with the token added, the creation page opens for it,
    and replaying the same webhook changes nothing more. Since the state
    is arbitrary, a replay after the token was consumed grants it again. *)
Theorem webhook_grants σ (w : WebhookReq) (ev : Event) t :
  signature_ok w = true -> parsed w = Some ev -> type ev = completed ->
  session_token (data_object ev) = Some t -> t <> "" ->
  store (webhook σ w) = {[t]} ∪ σ /\
  status (response (criar (store (webhook σ w)) (JString t))) = 200%nat /\
  webhook (store (webhook σ w)) w = webhook σ w.
Proof.
  intros Hs Hp Ht Htok Hne.
  rewrite !(webhook_adds _ w ev t) by assumption. cbn [reply store].
  split; [reflexivity|]. split.
  - unfold criar.
    assert (Hh : has ({[t]} ∪ σ) (JString t) = true).
    { cbn [has]. apply bool_decide_eq_true.
      rewrite elem_of_union, elem_of_singleton. auto. }
    assert (Htr : truthy (JString t) = true) by (apply truthy_string, Hne).
    rewrite Hh, Htr. reflexivity.
  - f_equal. apply set_eq. intros x. rewrite !elem_of_union. tauto.
Qed.

Lemma webhook_grants_witness :
  "T1" <> "" /\
  store (webhook (store (generate store_T1 generate_image_reply))
           (paid_webhook "T1")) = {[ "T1" ]} ∪ (store (generate store_T1 generate_image_reply)) /\
  status (response (criar (store (webhook (store (generate store_T1 generate_image_reply))
                                    (paid_webhook "T1"))) (JString "T1"))) = 200%nat.
Proof.
  assert (Hne : "T1" <> "") by discriminate.
  destruct (webhook_grants (store (generate store_T1 generate_image_reply))
              (paid_webhook "T1") _ "T1" eq_refl eq_refl eq_refl eq_refl Hne)
    as (Hstore & Hcriar & _).
  split; [exact Hne|]. split; [exact Hstore|exact Hcriar].
Defined.

(** A token enters the store only through a webhook that carries it. *)
Lemma store_handle_source σ (r : Request) t :
  t ∈ store (handle σ r) -> carries t r = true \/ t ∈ σ.
Proof.
  destruct r as [|req| | |tok|req|req]; cbn [handle carries]; auto.
  - unfold pagar. destruct (create_session req _); auto.
  - unfold criar. destruct (negb _); auto.
  - intros H. right. unfold generate in H.
    destruct (body_missing req); [exact H|].
    destruct (negb _ || negb _); [exact H|].
    destruct (negb _ || negb _); [exact H|].
    cbn [after_posting store] in H.
    destruct (fetch req _) as [e|resp]; [exact H|].
    destruct (negb (ok resp)); [exact H|].
    destruct (json resp) as [e|data]; [exact H|]. cbv zeta in H.
    assert (Hd : t ∈ delete σ (token_of req) -> t ∈ σ).
    { unfold delete. destruct (token_of req); auto.
      rewrite elem_of_difference. tauto. }
    destruct (truthy (opt_get _ "b64_json")); [auto|].
    destruct (truthy (opt_get _ "url")); auto.
  - unfold webhook, constructEvent, uncaught, parsed, data_object.
    destruct (signature_ok req); cbn [andb]; [|auto].
    destruct (body_json req) as [[| |ev]|]; auto. fold completed.
    destruct (String.eqb (type ev) completed); cbn [andb]; [|auto].
    destruct (data ev) as [d|]; [|auto]. cbn [reply store].
    destruct (session_token (object d)) as [t'|]; cbn [truthy_token]; [|auto].
    destruct (negb (t' =? "")%string); [|auto].
    unfold add. rewrite elem_of_union, elem_of_singleton.
    intros [-> | H]; [left; apply String.eqb_refl|right; exact H].
Qed.

(** X9. The empty string is never in a reachable store, so in a reachable
    store every member passes the handlers' truthiness test: there the
    check [!token || !paidTokens.has(token)] is the membership test alone,
    and a member token is served by both [/criar] and [/api/generate]. *)
Theorem stored_tokens_are_accepted σ (v : JSValue) :
  reachable σ ->
  ("" ∉ σ) /\
  (has σ v = true ->
   truthy v = true /\
   status (response (criar σ v)) = 200%nat /\
   forall req : GenerateReq,
     token_of req = v -> status (response (generate σ req)) <> 403%nat).
Proof.
  intros Hr. split; [apply reachable_nonempty, Hr|].
  intros Hh. pose proof (reachable_paid σ v Hr Hh) as Hpaid.
  split; [apply andb_true_iff in Hpaid; tauto|]. split.
  - unfold criar. rewrite Hpaid. reflexivity.
  - intros req <-. apply generate_not_403, Hpaid.
Qed.

Lemma stored_tokens_are_accepted_witness :
  reachable store_T1 /\
  has store_T1 (JString "T1") = true /\
  status (response (criar store_T1 (JString "T1"))) = 200%nat.
Proof.
  assert (Hr : reachable store_T1)
    by (exists [PostWebhook (paid_webhook "T1")]; reflexivity).
  assert (Hh : has store_T1 (JString "T1") = true) by (vm_compute; reflexivity).
  destruct (stored_tokens_are_accepted store_T1 (JString "T1") Hr) as [_ H].
  destruct (H Hh) as (_ & Hcriar & _).
  split; [exact Hr|]. split; [exact Hh|exact Hcriar].
Defined.

End Payments.

Section Minting.

Implicit Types (σ : gset string).

Lemma random_loop_get (random : nat -> spec_float) (todo i : nat) (out : string)
    (k : nat) :
  unit_interval random ->
  String.length out = i ->
  (k < i -> String.get k (random_loop random todo i out) = String.get k out) /\
  (i <= k < i + todo ->
   String.get k (random_loop random todo i out)
     = char_at chars (pick_index (random k))).
Proof.
  intros Hr. revert i out. induction todo as [|todo IH]; intros i out Hlen.
  - cbn [random_loop]. split; [reflexivity|lia].
  - cbn [random_loop].
    destruct (pick_index_range _ (Hr i)) as (j & Hj & Hjr).
    destruct (chars_alnum j Hjr) as (c & Hc & _).
    assert (Hout : append_char out (char_at chars (pick_index (random i)))
                   = out ++ String c "") by (rewrite Hj, Hc; reflexivity).
    rewrite Hout.
    destruct (IH (S i) (out ++ String c "")) as [IH1 IH2].
    { rewrite length_snoc, Hlen. reflexivity. }
    split.
    + intros Hk. rewrite IH1 by lia. symmetry.
      apply String.append_correct1. lia.
    + intros Hk. destruct (Nat.eq_dec k i) as [->|Hne].
      * rewrite IH1 by lia. rewrite Hj, Hc.
        rewrite <- Hlen.
        exact (eq_sym (String.append_correct2 out (String c "") 0)).
      * apply IH2. lia.
Qed.

(** X10. [cryptoRandomString(len)] returns, for every length and whatever
    doubles of the unit interval are drawn, a string of exactly [len]
    characters (the empty string for 0), all letters or digits, whose
    [k]-th character is the one the [k]-th draw selects from the alphabet:
    one call of [Math.random] per character, in order. *)
Theorem cryptoRandomString_shape (random : nat -> spec_float) (len : nat) :
  unit_interval random ->
  String.length (cryptoRandomString random len) = len /\
  all_chars is_alnum (cryptoRandomString random len) = true /\
  forall k, k < len ->
    String.get k (cryptoRandomString random len)
      = char_at chars (pick_index (random k)).
Proof.
  intros Hr. unfold cryptoRandomString.
  destruct (random_loop_shape random len 0 "" Hr eq_refl) as [Hlen Hall].
  split; [exact Hlen|]. split; [exact Hall|].
  intros k Hk.
  destruct (random_loop_get random len 0 "" k Hr eq_refl) as [_ H].
  apply H. lia.
Qed.

Lemma sample_draws_unit : unit_interval sample_draws.
Proof.
  intros i. unfold sample_draws.
  destruct (i mod 4)%nat as [|[|[|[|[|n]]]]]; cbn [nth];
    (split; [|split]); reflexivity.
Defined.

Lemma cryptoRandomString_shape_witness :
  unit_interval sample_draws /\
  String.length (cryptoRandomString sample_draws 5) = 5 /\
  String.get 2 (cryptoRandomString sample_draws 5) = Some "9"%char.
Proof.
  destruct (cryptoRandomString_shape sample_draws 5 sample_draws_unit)
    as (Hlen & _ & Hget).
  split; [exact sample_draws_unit|]. split; [exact Hlen|].
  rewrite (Hget 2) by lia. reflexivity.
Defined.

(** X11. [POST /pagar] mints a token but grants nothing: it leaves the
    store as it was and answers 200 or 500, so a minted token that is not
    already paid for opens neither the creation page nor a generation; once
    a verified [checkout.session.completed] webhook carries that token it
    does open the page, since a minted token is never the empty string that
    the webhook would ignore. *)
Theorem minted_token_lifecycle σ (req : PagarReq) (w : WebhookReq) (ev : Event) :
  unit_interval (random req) ->
  signature_ok w = true -> parsed w = Some ev -> type ev = completed ->
  session_token (data_object ev) = Some (makeToken (random req)) ->
  store (pagar σ req) = σ /\
  (status (response (pagar σ req)) = 200%nat \/
   status (response (pagar σ req)) = 500%nat) /\
  (makeToken (random req) ∉ σ ->
   status (response (criar (store (pagar σ req))
                       (JString (makeToken (random req))))) = 403%nat /\
   forall greq : GenerateReq,
     token_of greq = JString (makeToken (random req)) ->
     status (response (generate (store (pagar σ req)) greq)) = 403%nat) /\
  status (response (criar (store (webhook (store (pagar σ req)) w))
                      (JString (makeToken (random req))))) = 200%nat.
Proof.
  intros Hr Hs Hp Ht Htok.
  assert (Hstore : store (pagar σ req) = σ).
  { unfold pagar. destruct (create_session req _); reflexivity. }
  rewrite Hstore. split; [reflexivity|]. split; [|split].
  - unfold pagar. destruct (create_session req _); [right|left]; reflexivity.
  - intros Hout.
    assert (Hh : has σ (JString (makeToken (random req))) = false)
      by (cbn [has]; apply bool_decide_eq_false, Hout).
    split.
    + unfold criar. rewrite Hh, andb_false_r. reflexivity.
    + intros greq Heq. rewrite generate_403; [reflexivity| |].
      * destruct (body_missing greq) eqn:Hb; [|reflexivity].
        rewrite (token_of_missing greq Hb) in Heq. discriminate.
      * rewrite Heq, Hh. apply andb_false_r.
  - assert (Hne : makeToken (random req) <> "").
    { destruct (random_loop_shape (random req) 32 0 "" Hr eq_refl) as [Hlen _].
      unfold makeToken, cryptoRandomString. intros Hempty.
      rewrite Hempty in Hlen. discriminate. }
    rewrite (webhook_adds σ w ev _ Hs Hp Ht Htok Hne). cbn [reply store].
    unfold criar.
    assert (Hh : has ({[makeToken (random req)]} ∪ σ)
                     (JString (makeToken (random req))) = true).
    { cbn [has]. apply bool_decide_eq_true.
      rewrite elem_of_union, elem_of_singleton. auto. }
    assert (Htr : truthy (JString (makeToken (random req))) = true)
      by (apply truthy_string, Hne).
    rewrite Hh, Htr. reflexivity.
Qed.

Lemma minted_token_lifecycle_witness :
  unit_interval (random pagar_accepted) /\
  store (pagar ∅ pagar_accepted) = ∅ /\
  status (response (criar (store (webhook (store (pagar ∅ pagar_accepted))
                                    (paid_webhook (makeToken sample_draws))))
                      (JString (makeToken sample_draws)))) = 200%nat.
Proof.
  destruct (minted_token_lifecycle ∅ pagar_accepted
              (paid_webhook (makeToken sample_draws)) _
              sample_draws_unit eq_refl eq_refl eq_refl eq_refl)
    as (Hstore & _ & _ & Hopen).
  split; [exact sample_draws_unit|]. split; [exact Hstore|exact Hopen].
Defined.

End Minting.

Section Composition.

Lemma append_assoc (a b c : string) : (a ++ b) ++ c = a ++ (b ++ c).
Proof.
  induction a as [|x a IH]; [reflexivity|].
  change (String x ((a ++ b) ++ c) = String x (a ++ (b ++ c))).
  f_equal. exact IH.
Qed.

Lemma all_chars_app (p : ascii -> bool) (a b : string) :
  all_chars p (a ++ b) = all_chars p a && all_chars p b.
Proof.
  induction a as [|x a IH]; [reflexivity|].
  change (p x && all_chars p (a ++ b) = p x && all_chars p a && all_chars p b).
  rewrite IH. apply andb_assoc.
Qed.

Lemma trim_start_from_drop (k : nat) (s : string) :
  trim_start_from k s = trim_start_from 0 (Str.drop k s).
Proof.
  revert k. induction s as [|c s IH]; intros [|k]; simpl; try reflexivity.
  apply IH.
Qed.

Lemma prefixb_split (w s : string) :
  prefixb w s = true -> s = w ++ Str.drop (String.length w) s.
Proof.
  revert s. induction w as [|a w IH]; intros s H; [reflexivity|].
  destruct s as [|c s]; [discriminate|].
  cbn [prefixb] in H. apply andb_true_iff in H as [Hc H].
  apply Ascii.eqb_eq in Hc as ->.
  change (String c s = String c (w ++ Str.drop (String.length w) s)).
  f_equal. apply IH, H.
Qed.

Lemma leading_ws_spec (ws : list string) (s : string) (n : nat) :
  leading_ws ws s = Some n ->
  exists w, w ∈ ws /\ prefixb w s = true /\ String.length w = n.
Proof.
  induction ws as [|w ws IH]; cbn [leading_ws]; [discriminate|].
  destruct (prefixb w s) eqn:Hw.
  - intros [= <-]. exists w. split; [apply list_elem_of_here|auto].
  - intros H. destruct (IH H) as (w' & Hin & Hp & Hl).
    exists w'. split; [apply list_elem_of_further, Hin|auto].
Qed.

(** Every white space encoding is made of white space bytes, at least one. *)
Lemma white_space_bytes (w : string) :
  w ∈ white_space -> all_chars ws_byte w = true /\ 1 <= String.length w.
Proof.
  intros Hin. apply list_elem_of_In in Hin.
  assert (Hall : forallb (fun w => all_chars ws_byte w
                                   && Nat.leb 1 (String.length w))
                         white_space = true) by (vm_compute; reflexivity).
  rewrite forallb_forall in Hall. specialize (Hall w Hin).
  apply andb_true_iff in Hall as [H1 H2]. apply Nat.leb_le in H2. auto.
Qed.

(** What [trimStart] removes entirely is made of white space bytes. *)
Lemma blank_bytes_bounded (n : nat) (s : string) :
  String.length s <= n -> trimStart s = "" -> all_chars ws_byte s = true.
Proof.
  unfold trimStart. revert s. induction n as [|n IH]; intros s Hlen H.
  - destruct s; [reflexivity|simpl in Hlen; lia].
  - destruct s as [|c s]; [reflexivity|].
    cbn [trim_start_from] in H.
    destruct (leading_ws white_space (String c s)) as [k|] eqn:Hk;
      [|discriminate].
    destruct (leading_ws_spec _ _ _ Hk) as (w & Hin & Hp & Hl).
    destruct (white_space_bytes w Hin) as [Hw Hpos].
    rewrite trim_start_from_drop in H.
    rewrite (prefixb_split w _ Hp), all_chars_app, Hw. cbn [andb].
    rewrite Hl. destruct k as [|k]; [lia|]. cbn [Str.drop Nat.pred] in *.
    apply IH; [|exact H].
    pose proof (length_drop k s). simpl in Hlen. lia.
Qed.

(** A byte that belongs to no white space keeps a text from being blank. *)
Lemma blank_stops (u rest : string) (d : ascii) :
  ws_byte d = false -> blank (u ++ String d rest) = false.
Proof.
  intros Hd. unfold blank.
  destruct (trimStart (u ++ String d rest)) eqn:E; [|reflexivity].
  apply (blank_bytes_bounded (String.length (u ++ String d rest))) in E; [|lia].
  rewrite all_chars_app in E. cbn [all_chars] in E. rewrite Hd in E.
  rewrite andb_false_r in E. discriminate.
Qed.

Lemma trimEnd_app (a post : string) :
  (forall u, blank (u ++ post) = false) ->
  trimEnd (a ++ post) = a ++ trimEnd post.
Proof.
  intros H. induction a as [|c a IH]; [reflexivity|].
  change (String c a ++ post) with (String c (a ++ post)).
  cbn [trimEnd].
  change (String c (a ++ post)) with (String c a ++ post).
  rewrite H. rewrite IH. reflexivity.
Qed.

(** X12. The composed prompt is the fixed template with the sanitized
    prompt put in verbatim after ["Elementos: "]: for every text, trimming
    the template removes its first and last line break and nothing else,
    nothing of the embedded text either, even when that text is empty or
    is white space itself. *)
Theorem finalPrompt_embeds (x : string) :
  finalPrompt x = template_head ++ x ++ template_tail.
Proof.
  unfold finalPrompt, trim.
  lazymatch goal with
  | |- trimEnd (trimStart (?pre ++ x ++ String ?d ?rest)) = _ =>
      change (trimStart (pre ++ x ++ String d rest))
        with (template_head ++ x ++ String d rest);
      rewrite <- append_assoc;
      rewrite (trimEnd_app (template_head ++ x) (String d rest))
        by (intros u; apply blank_stops; reflexivity);
      rewrite append_assoc;
      do 2 f_equal; vm_compute; reflexivity
  end.
Qed.

(** X13. A prompt without a denylisted word, in whatever case, is passed
    on unchanged apart from the trimming; and the substitution leaves its
    own output alone, so that sanitizing a text twice substitutes no more
    than sanitizing it once. *)
Theorem clean_prompt_is_only_trimmed :
  (forall prompt,
     (forall w, w ∈ denylist -> occurs_ci w prompt = false) ->
     safePrompt prompt = trim prompt) /\
  (forall text, replace_denylist (replace_denylist text) = replace_denylist text) /\
  (forall prompt, replace_denylist (safePrompt prompt) = safePrompt prompt).
Proof.
  split; [|split].
  - intros prompt H. unfold safePrompt. rewrite replace_denylist_id by exact H.
    reflexivity.
  - intros text. apply replace_denylist_id. intros w Hw.
    apply replace_clean, Hw.
  - intros prompt. apply replace_denylist_id. intros w Hw.
    apply safePrompt_clean, Hw.
Qed.

Lemma clean_prompt_is_only_trimmed_witness :
  (forall w, w ∈ denylist -> occurs_ci w "  a red dragon " = false) /\
  safePrompt "  a red dragon " = "a red dragon".
Proof.
  assert (H : forall w, w ∈ denylist -> occurs_ci w "  a red dragon " = false).
  { intros w [-> | ->]%denylist_cases; reflexivity. }
  split; [exact H|].
  rewrite (proj1 clean_prompt_is_only_trimmed _ H). reflexivity.
Defined.

End Composition.

Section Frames.

Implicit Types (σ : gset string) (t : string).

(** X14. A webhook never revokes anything and grants at most the token it
    carries: every token of the store is still there afterwards, and a
    token there afterwards was there before or is the one a verified
    [checkout.session.completed] event carried. The answer is 200, or it is
    400 or 500 with the store untouched: 400 exactly when the signature
    does not verify or the body is not JSON, and 500 exactly when the
    verified body is [null] or a completed event without a [data] member,
    which make the handler throw outside its [try]. *)
Theorem webhook_never_revokes σ (w : WebhookReq) :
  σ ⊆ store (webhook σ w) /\
  (forall t, t ∈ store (webhook σ w) ->
             t ∈ σ \/ carries t (PostWebhook w) = true) /\
  (status (response (webhook σ w)) = 200%nat \/
   (status (response (webhook σ w)) = 400%nat \/
    status (response (webhook σ w)) = 500%nat) /\ store (webhook σ w) = σ) /\
  (status (response (webhook σ w)) = 400%nat <->
   signature_ok w = false \/ body_json w = None) /\
  (status (response (webhook σ w)) = 500%nat <->
   signature_ok w = true /\
   (body_json w = Some JsonNull \/
    exists ev, body_json w = Some (JsonEvent ev) /\
               type ev = completed /\ data ev = None)).
Proof.
  split; [|split].
  - unfold webhook, uncaught.
    destruct (constructEvent w) as [msg|[| |ev]]; try done.
    destruct (String.eqb _ _); [|done].
    destruct (data ev) as [d|]; [|done]. cbn [reply store].
    destruct (truthy_token _); [|done].
    destruct (session_token _); [|done].
    unfold add. intros x Hx. apply elem_of_union. right. exact Hx.
  - intros t Hin.
    destruct (store_handle_source σ (PostWebhook w) t Hin); auto.
  - unfold webhook, constructEvent, uncaught.
    destruct (signature_ok w).
    2:{ cbn [reply response status store].
        split; [right; split; [left|]; reflexivity|].
        split; [split; [left|]; reflexivity|].
        split; [intros H; lia|intros [H _]; discriminate]. }
    destruct (body_json w) as [[| |ev]|]; cbn [reply response status store].
    + split; [right; split; [right|]; reflexivity|].
      split; [split; [intros H; lia|intros [|]; discriminate]|].
      split; [intros _; split; [|left]; reflexivity|reflexivity].
    + split; [left; reflexivity|].
      split; [split; [intros H; lia|intros [|]; discriminate]|].
      split; [intros H; lia|].
      intros [_ [H|(ev & H & _)]]; discriminate.
    + fold completed. destruct (String.eqb_spec (type ev) completed) as [Ht|Ht].
      * destruct (data ev) as [d|] eqn:Hd; cbn [reply response status store].
        -- split; [left; reflexivity|].
           split; [split; [intros H; lia|intros [|]; discriminate]|].
           split; [intros H; lia|].
           intros [_ [H|(ev' & [= <-] & _ & H)]]; [discriminate|congruence].
        -- split; [right; split; [right|]; reflexivity|].
           split; [split; [intros H; lia|intros [|]; discriminate]|].
           split; [|reflexivity]. intros _. split; [reflexivity|].
           right. exists ev. auto.
      * cbn [reply response status store].
        split; [left; reflexivity|].
        split; [split; [intros H; lia|intros [|]; discriminate]|].
        split; [intros H; lia|].
        intros [_ [H|(ev' & [= <-] & H & _)]]; [discriminate|contradiction].
    + split; [right; split; [left|]; reflexivity|].
      split; [split; [right|]; reflexivity|].
      split; [intros H; lia|].
      intros [_ [H|(ev & H & _)]]; discriminate.
Qed.

(** X15. The [catch] of [POST /api/generate]: when the call to the image
    API throws, or its success reply has a body that is not JSON, the
    answer is 500 ["Erro interno."] with the error as details, and the
    store is as before, so the token can be used again. *)
Theorem generate_internal_error_keeps_token σ (req : GenerateReq) (e : string) :
  truthy (token_of req) && has σ (token_of req) = true ->
  valid_prompt (prompt_of req) = true ->
  fetch req (composed req) = NetworkError e \/
  (exists resp, fetch req (composed req) = Resolved resp /\
                ok resp = true /\ json resp = inl e) ->
  response (generate σ req) =
    {| status := 500; payload := Failure "Erro interno." (Some e) |} /\
  store (generate σ req) = σ /\
  has (store (generate σ req)) (token_of req) = true.
Proof.
  intros Hpaid Hv Hfail.
  pose proof Hpaid as Hp. apply andb_true_iff in Hp as [_ Hh].
  rewrite generate_posted by assumption.
  destruct Hfail as [-> | (resp & -> & Hok & Hj)].
  - cbn [after_posting reply response store]. auto.
  - rewrite Hok, Hj. cbn [negb after_posting reply response store]. auto.
Qed.

Lemma generate_internal_error_keeps_token_witness :
  truthy (token_of generate_html_reply)
    && has store_T1 (token_of generate_html_reply) = true /\
  valid_prompt (prompt_of generate_html_reply) = true /\
  response (generate store_T1 generate_html_reply) =
    {| status := 500;
       payload := Failure "Erro interno." (Some "SyntaxError: Unexpected token <") |} /\
  store (generate store_T1 generate_html_reply) = store_T1.
Proof.
  assert (Hpaid : truthy (token_of generate_html_reply)
                  && has store_T1 (token_of generate_html_reply) = true)
    by (vm_compute; reflexivity).
  destruct (generate_internal_error_keeps_token store_T1 generate_html_reply
              "SyntaxError: Unexpected token <" Hpaid eq_refl) as (Hresp & Hstore & _).
  { right. eexists. split; [reflexivity|]. split; reflexivity. }
  split; [exact Hpaid|]. split; [reflexivity|]. split; [exact Hresp|exact Hstore].
Defined.

End Frames.

Section TokenSpace.

Lemma get_lt_some (s : string) (n : nat) :
  n < String.length s -> exists c, String.get n s = Some c.
Proof.
  revert n. induction s as [|a s IH]; intros n Hn; [simpl in Hn; lia|].
  destruct n as [|n]; [exists a; reflexivity|].
  simpl in *. apply IH. lia.
Qed.

Lemma get_ge_none (s : string) (n : nat) :
  String.length s <= n -> String.get n s = None.
Proof.
  revert n. induction s as [|a s IH]; intros n Hn; [destruct n; reflexivity|].
  destruct n as [|n]; [simpl in Hn; lia|].
  simpl in *. apply IH. lia.
Qed.

Lemma get_some_lt (s : string) (n : nat) (c : ascii) :
  String.get n s = Some c -> n < String.length s.
Proof.
  intros H. destruct (Nat.lt_ge_cases n (String.length s)) as [Hlt|Hge];
    [exact Hlt|].
  rewrite get_ge_none in H by exact Hge. discriminate.
Qed.

Lemma all_chars_get (p : ascii -> bool) (s : string) (n : nat) (c : ascii) :
  all_chars p s = true -> String.get n s = Some c -> p c = true.
Proof.
  revert n. induction s as [|a s IH]; intros n Hall Hget; [destruct n; discriminate|].
  cbn [all_chars] in Hall. apply andb_true_iff in Hall as [Ha Hall].
  destruct n as [|n]; simpl in Hget.
  - injection Hget as <-. exact Ha.
  - exact (IH n Hall Hget).
Qed.

Lemma position_get (c : ascii) (s : string) (i : nat) :
  position c s = Some i -> String.get i s = Some c.
Proof.
  revert i. induction s as [|a s IH]; intros i H; [discriminate|].
  cbn [position] in H. destruct (Ascii.eqb_spec c a) as [->|_].
  - injection H as <-. reflexivity.
  - destruct (position c s) as [j|]; [|discriminate].
    injection H as <-. simpl. apply IH. reflexivity.
Qed.

(** Every letter and digit has its place in the alphabet. *)
Lemma position_alnum (c : ascii) :
  is_alnum c = true -> exists i, position c chars = Some i /\ i < 62.
Proof.
  intros Hc.
  assert (Hall : forallb
            (fun n => implb (is_alnum (ascii_of_nat n))
                        match position (ascii_of_nat n) chars with
                        | Some _ => true
                        | None => false
                        end) (seq 0 256) = true) by (vm_compute; reflexivity).
  rewrite forallb_forall in Hall.
  specialize (Hall (nat_of_ascii c)). rewrite ascii_nat_embedding, Hc in Hall.
  destruct (position c chars) as [i|] eqn:Hpos.
  - exists i. split; [reflexivity|].
    apply position_get, get_some_lt in Hpos. exact Hpos.
  - enough (false = true) by discriminate. apply Hall.
    apply in_seq. pose proof (nat_ascii_bounded c). lia.
Qed.

(** The draw chosen for a place of the alphabet selects that place. *)
Lemma draw_for_selects (i : nat) :
  i < 62 ->
  unit_double (draw_for i) /\ pick_index (draw_for i) = Some (Z.of_nat i).
Proof.
  intros Hi.
  assert (Hall : forallb
            (fun i => unit_doubleb (draw_for i)
                      && match pick_index (draw_for i) with
                         | Some j => Z.eqb j (Z.of_nat i)
                         | None => false
                         end) (seq 0 62) = true) by (vm_compute; reflexivity).
  rewrite forallb_forall in Hall. specialize (Hall i).
  rewrite in_seq in Hall. specialize (Hall ltac:(lia)).
  apply andb_true_iff in Hall as [Hu Hp].
  unfold unit_doubleb in Hu. apply andb_true_iff in Hu as [Hu H1].
  apply andb_true_iff in Hu as [Hv H0].
  split; [repeat split; assumption|].
  destruct (pick_index (draw_for i)) as [j|]; [|discriminate].
  apply Z.eqb_eq in Hp as ->. reflexivity.
Qed.

Lemma draws_for_unit (s : string) : unit_interval (draws_for s).
Proof.
  intros k. unfold draws_for.
  destruct (String.get k s) as [c|]; [|repeat split; reflexivity].
  destruct (position c chars) as [i|] eqn:Hpos; [|repeat split; reflexivity].
  apply draw_for_selects.
  apply position_get, get_some_lt in Hpos. exact Hpos.
Qed.

(** X16. The generator reaches every token: for every text made of letters
    and digits there are draws of the unit interval for which
    [cryptoRandomString] of its length returns exactly that text, so the
    tokens [makeToken] can mint are all the strings of 32 letters and
    digits and no character of the alphabet is out of reach. *)
Theorem cryptoRandomString_covers (s : string) :
  all_chars is_alnum s = true ->
  unit_interval (draws_for s) /\
  cryptoRandomString (draws_for s) (String.length s) = s /\
  (String.length s = 32 -> makeToken (draws_for s) = s).
Proof.
  intros Hs. pose proof (draws_for_unit s) as Hu.
  assert (Heq : cryptoRandomString (draws_for s) (String.length s) = s).
  { apply String.get_correct. intros n. unfold cryptoRandomString.
    destruct (Nat.lt_ge_cases n (String.length s)) as [Hlt|Hge].
    - destruct (random_loop_get (draws_for s) (String.length s) 0 "" n Hu eq_refl)
        as [_ ->]; [|lia].
      destruct (get_lt_some s n Hlt) as [c Hc].
      destruct (position_alnum c (all_chars_get _ _ _ _ Hs Hc)) as (i & Hpos & Hi).
      unfold draws_for. rewrite Hc, Hpos.
      destruct (draw_for_selects i Hi) as [_ ->].
      unfold char_at.
      destruct (Z.ltb_spec (Z.of_nat i) 0) as [?|_]; [lia|].
      rewrite Nat2Z.id. apply position_get, Hpos.
    - rewrite (get_ge_none s n Hge). apply get_ge_none.
      destruct (random_loop_shape (draws_for s) (String.length s) 0 "" Hu eq_refl)
        as [-> _]. simpl. exact Hge. }
  split; [exact Hu|]. split; [exact Heq|].
  intros H32. unfold makeToken. rewrite <- H32. exact Heq.
Qed.

Lemma cryptoRandomString_covers_witness :
  all_chars is_alnum "Zz09aAmM" = true /\
  cryptoRandomString (draws_for "Zz09aAmM") 8 = "Zz09aAmM".
Proof.
  split; [reflexivity|].
  exact (proj1 (proj2 (cryptoRandomString_covers "Zz09aAmM" eq_refl))).
Defined.

End TokenSpace.

Section EventLoop.

Import Overlap.

Implicit Types (σ : gset string) (t : string) (s : Loop).

(** Run without a pause, the two runs of the handler are [generate]. *)
Lemma generate_split σ (req : GenerateReq) :
  generate σ req =
    match accept σ req with
    | Some o => o
    | None => complete σ req
    end.
Proof.
  unfold generate, accept, complete.
  destruct (body_missing req); [reflexivity|]. cbv zeta.
  destruct (negb _ || negb _); [reflexivity|].
  destruct (negb _ || negb _); reflexivity.
Qed.

Lemma accept_some σ (req : GenerateReq) (o : Outcome) :
  accept σ req = Some o -> o = generate σ req /\ store o = σ.
Proof.
  intros H. rewrite generate_split, H. split; [reflexivity|].
  unfold accept in H. destruct (body_missing req); [injection H as <-; reflexivity|].
  cbv zeta in H.
  destruct (negb _ || negb _); [injection H as <-; reflexivity|].
  destruct (negb _ || negb _); [injection H as <-; reflexivity|discriminate].
Qed.

(** A call is let in only with a token of the store. *)
Lemma accept_none σ (req : GenerateReq) :
  accept σ req = None -> has σ (token_of req) = true.
Proof.
  unfold accept. destruct (body_missing req); [discriminate|]. cbv zeta.
  destruct (has σ (token_of req)); [reflexivity|].
  rewrite orb_true_r. discriminate.
Qed.

Lemma presents_token t (req : GenerateReq) :
  presents t req = true <-> token_of req = JString t.
Proof.
  unfold presents. destruct (token_of req); try (split; discriminate).
  rewrite String.eqb_eq. split; [intros ->; reflexivity|intros [= ->]; reflexivity].
Qed.

Lemma complete_cases σ (req : GenerateReq) :
  store (complete σ req) = σ \/
  store (complete σ req) = delete σ (token_of req).
Proof.
  unfold complete. cbv zeta. cbn [after_posting store].
  destruct (fetch req _) as [e|resp]; [left; reflexivity|].
  destruct (negb (ok resp)); [left; reflexivity|].
  destruct (json resp) as [e|data]; [left; reflexivity|].
  destruct (truthy (opt_get _ "b64_json")); [right; reflexivity|].
  destruct (truthy (opt_get _ "url")); right; reflexivity.
Qed.

Lemma complete_200 σ (req : GenerateReq) :
  status (response (complete σ req)) = 200%nat ->
  store (complete σ req) = delete σ (token_of req).
Proof.
  unfold complete. cbv zeta. cbn [after_posting store response].
  destruct (fetch req _) as [e|resp]; [cbn; lia|].
  destruct (negb (ok resp)); [cbn; lia|].
  destruct (json resp) as [e|data]; [cbn; lia|].
  destruct (truthy (opt_get _ "b64_json")); [reflexivity|].
  destruct (truthy (opt_get _ "url")); reflexivity.
Qed.

(** Settling a call touches no token but its own. *)
Lemma complete_spares σ (req : GenerateReq) t :
  (t ∈ store (complete σ req) -> t ∈ σ) /\
  (presents t req = false -> t ∈ σ -> t ∈ store (complete σ req)).
Proof.
  destruct (complete_cases σ req) as [-> | ->]; [tauto|].
  unfold presents.
  destruct (token_of req) as [| | | |t'| |]; cbn [delete]; try tauto.
  rewrite elem_of_difference, elem_of_singleton. split; [tauto|].
  intros Hne Hin. split; [exact Hin|]. intros ->.
  rewrite String.eqb_refl in Hne. discriminate.
Qed.

(** A request other than a generation call removes nothing. *)
Lemma handle_keeps σ (r : Request) t :
  (forall req, r <> PostGenerate req) -> t ∈ σ -> t ∈ store (handle σ r).
Proof.
  intros Hr Hin. destruct r as [|req| | |tok|req|req]; cbn [handle]; auto.
  - unfold pagar. destruct (create_session req _); exact Hin.
  - unfold criar. destruct (negb _); exact Hin.
  - exfalso. exact (Hr req eq_refl).
  - unfold webhook, uncaught.
    destruct (constructEvent req) as [msg|[| |ev]]; try exact Hin.
    destruct (String.eqb _ _); [|exact Hin].
    destruct (data ev) as [d|]; [|exact Hin]. cbn [reply store].
    destruct (truthy_token _); [|exact Hin].
    destruct (session_token _); [|exact Hin].
    unfold add. apply elem_of_union. right. exact Hin.
Qed.

Lemma waiting_with_app t (l : list GenerateReq) (req : GenerateReq) :
  waiting_with t (l ++ [req])
  = waiting_with t l + (if presents t req then 1 else 0).
Proof.
  induction l as [|x l IH]; cbn [app waiting_with]; [lia|]. rewrite IH. lia.
Qed.

Lemma waiting_with_without t (l : list GenerateReq) (i : nat) (req : GenerateReq) :
  nth_error l i = Some req ->
  waiting_with t (without i l) + (if presents t req then 1 else 0)
  = waiting_with t l.
Proof.
  unfold without. revert i. induction l as [|x l IH]; intros i H.
  - destruct i; discriminate.
  - destruct i as [|i]; cbn in H.
    + injection H as ->. cbn [firstn skipn app waiting_with].
      change (skipn 0 l) with l. lia.
    + specialize (IH i H). cbn [firstn skipn app waiting_with] in *. lia.
Qed.

Lemma images_settled_bound (schedule : list Step) t s :
  orderly t s ->
  serial t s schedule = true ->
  images_settled t s schedule
  <= (if bool_decide (t ∈ tokens s) then 1 else 0) + payments_arrived t schedule.
Proof.
  revert s. induction schedule as [|e schedule IH]; intros s [Hone Hin] Hser;
    cbn [images_settled payments_arrived]; [lia|].
  cbn [serial] in Hser. apply andb_true_iff in Hser as [Hov Hser].
  apply negb_true_iff in Hov.
  destruct e as [r|i].
  - (* a request arrives *)
    cbn [image_settled].
    destruct r as [|preq| | |tok|req|wreq].
    6:{ (* a generation call *)
      cbn [advance] in *. cbn [carries].
      destruct (accept (tokens s) req) as [o|] eqn:Hadm; cbn [fst] in *.
      { specialize (IH s (conj Hone Hin) Hser). lia. }
      cbn [overlaps] in Hov. rewrite Hadm, andb_true_r in Hov.
      assert (Hor : orderly t {| tokens := tokens s; waiting := waiting s ++ [req] |}).
      { unfold orderly. cbn [tokens waiting]. rewrite waiting_with_app.
        destruct (presents t req) eqn:Hp; [|split; [lia|intros H; apply Hin; lia]].
        cbn [andb] in Hov. apply negb_false_iff, Nat.eqb_eq in Hov.
        split; [lia|]. intros _.
        apply presents_token in Hp. apply accept_none in Hadm.
        rewrite Hp in Hadm. cbn [has] in Hadm.
        apply bool_decide_eq_true in Hadm. exact Hadm. }
      specialize (IH _ Hor Hser). cbn [tokens] in IH. lia. }
    all: cbn [advance fst] in *.
    all: match goal with
         | |- context [handle ?σ0 ?r] =>
             assert (Hor : orderly t {| tokens := store (handle σ0 r);
                                        waiting := waiting s |})
               by (split; [exact Hone|];
                   intros H; apply handle_keeps; [discriminate|apply Hin, H]);
             specialize (IH _ Hor Hser); cbn [tokens] in IH;
             destruct (bool_decide (t ∈ store (handle σ0 r))) eqn:Hafter;
             [apply bool_decide_eq_true, store_handle_source in Hafter
             |destruct (carries t r); lia];
             destruct Hafter as [Hc|Hbefore];
             [rewrite Hc; lia
             |rewrite (bool_decide_eq_true_2 _ Hbefore); destruct (carries t r); lia]
         end.
  - (* a waiting call is settled *)
    cbn [image_settled advance] in *.
    destruct (nth_error (waiting s) i) as [req|] eqn:Hnth; cbn [fst] in *.
    2:{ specialize (IH s (conj Hone Hin) Hser). lia. }
    pose proof (waiting_with_without t _ _ _ Hnth) as Hcount.
    destruct (complete_spares (tokens s) req t) as [Hback Hkeep].
    destruct (presents t req) eqn:Hp.
    + assert (Hin' : t ∈ tokens s) by (apply Hin; lia).
      assert (Hor : orderly t {| tokens := store (complete (tokens s) req);
                                 waiting := without i (waiting s) |}).
      { split; cbn [tokens waiting]; [lia|intros H; lia]. }
      specialize (IH _ Hor Hser). cbn [tokens] in IH.
      rewrite (bool_decide_eq_true_2 _ Hin'). cbn [andb].
      destruct (Nat.eqb_spec (status (response (complete (tokens s) req))) 200)
        as [H200|_].
      * assert (Hgone : t ∉ store (complete (tokens s) req)).
        { rewrite (complete_200 _ _ H200).
          apply presents_token in Hp. rewrite Hp. cbn [delete].
          rewrite elem_of_difference, elem_of_singleton. tauto. }
        rewrite (bool_decide_eq_false_2 _ Hgone) in IH. lia.
      * destruct (bool_decide (t ∈ store (complete (tokens s) req))); lia.
    + cbn [andb].
      assert (Hor : orderly t {| tokens := store (complete (tokens s) req);
                                 waiting := without i (waiting s) |}).
      { split; cbn [tokens waiting]; [lia|]. intros H. apply Hkeep; [reflexivity|].
        apply Hin. lia. }
      specialize (IH _ Hor Hser). cbn [tokens] in IH.
      destruct (bool_decide (t ∈ store (complete (tokens s) req))) eqn:Hafter;
        [|lia].
      apply bool_decide_eq_true in Hafter.
      rewrite (bool_decide_eq_true_2 _ (Hback Hafter)). lia.
Qed.

(** Served one by one, the loop is [run], and no two calls overlap. *)
Lemma one_by_one_run (trace : list Request) σ t :
  play {| tokens := σ; waiting := [] |} (one_by_one trace)
    = {| tokens := run σ trace; waiting := [] |} /\
  serial t {| tokens := σ; waiting := [] |} (one_by_one trace) = true.
Proof.
  revert σ. induction trace as [|r trace IH]; intros σ; [split; reflexivity|].
  destruct r as [|preq| | |tok|req|wreq];
    try (cbn [one_by_one play serial overlaps advance fst tokens waiting run negb andb];
         apply IH).
  cbn [one_by_one play serial overlaps advance tokens waiting run handle].
  cbn [waiting_with Nat.eqb negb]. rewrite !andb_false_r. cbn [negb andb].
  rewrite generate_split.
  destruct (accept σ req) as [o|] eqn:Hadm; cbn [fst tokens waiting nth_error].
  - destruct (accept_some _ _ _ Hadm) as [_ ->]. cbn [fst]. apply IH.
  - cbn [app nth_error without firstn skipn fst].
    specialize (IH (store (complete σ req))). exact IH.
Qed.

(** X8. One image per payment, unless calls overlap. In the event loop,
    where a generation call reads the store when it arrives and writes it
    when the image API has answered, the calls answered with an image for a
    token are never more than the verified payment webhooks that carried
    it, provided no two calls presenting that token wait for the image API
    at the same time; serving the requests one after the other is such a
    schedule, and gives the store of [run]. The proviso is needed: when two
    calls with the token of one payment arrive before either is settled,
    both are answered with an image. *)
Theorem one_image_per_payment_unless_overlap :
  (forall (schedule : list Step) t,
     serial t start schedule = true ->
     images_settled t start schedule <= payments_arrived t schedule) /\
  (forall (trace : list Request) t,
     serial t start (one_by_one trace) = true /\
     tokens (play start (one_by_one trace)) = run ∅ trace /\
     images_settled t start (one_by_one trace)
       <= payments_arrived t (one_by_one trace)) /\
  (serial "T1" start race = false /\
   images_settled "T1" start race = 2 /\ payments_arrived "T1" race = 1).
Proof.
  assert (Hstart : forall t, orderly t start).
  { intros t. split; cbn; [lia|discriminate]. }
  assert (Hbound : forall (schedule : list Step) t,
            serial t start schedule = true ->
            images_settled t start schedule <= payments_arrived t schedule).
  { intros schedule t Hser.
    pose proof (images_settled_bound schedule t start (Hstart t) Hser) as H.
    cbn [start tokens] in H.
    rewrite bool_decide_eq_false_2 in H by apply not_elem_of_empty. exact H. }
  split; [exact Hbound|]. split.
  - intros trace t. destruct (one_by_one_run trace ∅ t) as [Hplay Hser].
    split; [exact Hser|]. split; [|apply Hbound, Hser].
    unfold start. rewrite Hplay. reflexivity.
  - repeat split; vm_compute; reflexivity.
Qed.

Lemma one_image_per_payment_unless_overlap_witness :
  let schedule :=
    [ Arrive (PostWebhook (paid_webhook "T1"));
      Arrive (PostGenerate generate_image_reply);
      Arrive (PostWebhook (paid_webhook "T2"));
      Settle 0;
      Arrive (PostGenerate generate_image_reply) ] in
  serial "T1" start schedule = true /\
  images_settled "T1" start schedule <= payments_arrived "T1" schedule /\
  images_settled "T1" start schedule = 1.
Proof.
  cbv zeta.
  assert (Hser : serial "T1" start
            [ Arrive (PostWebhook (paid_webhook "T1"));
              Arrive (PostGenerate generate_image_reply);
              Arrive (PostWebhook (paid_webhook "T2"));
              Settle 0;
              Arrive (PostGenerate generate_image_reply) ] = true)
    by (vm_compute; reflexivity).
  split; [exact Hser|].
  split; [exact (proj1 one_image_per_payment_unless_overlap _ "T1" Hser)|].
  vm_compute. reflexivity.
Defined.

Lemma play_app s (a b : list Step) : play s (a ++ b) = play (play s a) b.
Proof.
  revert s. induction a as [|e a IH]; intros s; [reflexivity|].
  cbn [app play]. apply IH.
Qed.

Lemma spent_app t s (a b : list Step) :
  spent t s (a ++ b) = spent t s a || spent t (play s a) b.
Proof.
  revert s. induction a as [|e a IH]; intros s; [reflexivity|].
  cbn [app spent play]. rewrite IH, orb_assoc. reflexivity.
Qed.

Lemma paid_unspent_nil t : ~ paid_unspent t [].
Proof.
  intros (before & r & after & H & _). destruct before; discriminate.
Qed.

Lemma paid_unspent_snoc t (schedule : list Step) (e : Step) :
  paid_unspent t (schedule ++ [e]) <->
  (exists r, e = Arrive r /\ carries t r = true) \/
  (paid_unspent t schedule /\ spends t (play start schedule) e = false).
Proof.
  split.
  - intros (before & r & after & Heq & Hc & Hafter).
    destruct after as [|x after _] using rev_ind.
    + apply app_inj_tail in Heq as [_ ->]. left. exists r. split; [reflexivity|exact Hc].
    + right. rewrite app_comm_cons, app_assoc in Heq.
      apply app_inj_tail in Heq as [-> ->].
      rewrite spent_app in Hafter. apply orb_false_iff in Hafter as [Hafter Hx].
      cbn [spent] in Hx. rewrite orb_false_r in Hx. split.
      * exists before, r, after. split; [reflexivity|]. split; [exact Hc|exact Hafter].
      * rewrite <- Hx. f_equal.
        change (before ++ Arrive r :: after)%list
          with (before ++ [Arrive r] ++ after)%list.
        rewrite app_assoc. apply play_app.
  - intros [(r & -> & Hc) | [(before & r & after & -> & Hc & Hafter) He]].
    + exists schedule, r, []. split; [reflexivity|]. split; [exact Hc|reflexivity].
    + exists before, r, (after ++ [e])%list. split.
      { rewrite <- app_assoc. reflexivity. }
      split; [exact Hc|]. rewrite spent_app, Hafter. cbn [orb spent].
      rewrite orb_false_r. rewrite <- He. f_equal.
      change (before ++ Arrive r :: after)%list
        with (before ++ [Arrive r] ++ after)%list.
      rewrite app_assoc. symmetry. apply play_app.
Qed.

(** The store after a settled call: the token is deleted exactly when the
    upstream reply was a success with a JSON body. *)
Lemma complete_store σ (req : GenerateReq) :
  store (complete σ req) = if settles req then delete σ (token_of req) else σ.
Proof.
  unfold complete, settles. cbv zeta. cbn [after_posting store].
  destruct (fetch req _) as [e|resp]; [reflexivity|].
  destruct (ok resp); cbn [negb andb]; [|reflexivity].
  destruct (json resp) as [e|data]; [reflexivity|].
  destruct (truthy (opt_get _ "b64_json")); [reflexivity|].
  destruct (truthy (opt_get _ "url")); reflexivity.
Qed.

Lemma advance_store t s (e : Step) :
  t <> "" ->
  t ∈ tokens (fst (advance s e)) <->
  (exists r, e = Arrive r /\ carries t r = true) \/
  (t ∈ tokens s /\ spends t s e = false).
Proof.
  intros Ht. destruct e as [r|i].
  - assert (Hgen : forall req, r = PostGenerate req ->
              t ∈ tokens (fst (advance s (Arrive r))) <-> t ∈ tokens s).
    { intros req ->. cbn [advance].
      destruct (accept (tokens s) req); reflexivity. }
    cbn [spends].
    destruct r as [|preq| | |tok|req|wreq].
    6:{ rewrite (Hgen req eq_refl). split; [intros H; right; split; [exact H|reflexivity]|].
        intros [(r & [= <-] & Hc)|[H _]]; [discriminate Hc|exact H]. }
    all: cbn [advance fst tokens]; rewrite store_handle by exact Ht;
      cbn [consumes]; split;
      [intros [Hc|[H _]]; [left; eexists; split; [reflexivity|exact Hc]
                          |right; split; [exact H|reflexivity]]
      |intros [(r & [= <-] & Hc)|[H _]];
         [left; exact Hc|right; split; [exact H|reflexivity]]].
  - cbn [advance spends].
    destruct (nth_error (waiting s) i) as [req|]; cbn [fst tokens].
    2:{ split; [intros H; right; split; [exact H|reflexivity]|].
        intros [(r & [=] & _)|[H _]]; exact H. }
    rewrite complete_store.
    destruct (settles req); rewrite ?andb_true_r, ?andb_false_r.
    + unfold presents.
      destruct (token_of req) as [| | | |t'| |]; cbn [delete];
        try (split; [intros H; right; split; [exact H|reflexivity]
                    |intros [(r & [=] & _)|[H _]]; exact H]).
      rewrite elem_of_difference, elem_of_singleton. split.
      * intros [H Hne]. right. split; [exact H|].
        apply String.eqb_neq. exact Hne.
      * intros [(r & [=] & _)|[H Hne]]. split; [exact H|].
        apply String.eqb_neq. exact Hne.
    + split; [intros H; right; split; [exact H|reflexivity]|].
      intros [(r & [=] & _)|[H _]]; exact H.
Qed.

(** X17. The token-store invariant in the event loop. Whatever the order in
    which requests arrive and waiting generation calls are settled, a
    non-empty token is in the store exactly when a signature-verified
    [checkout.session.completed] webhook carrying it has arrived and no
    call presenting it has been settled since with a successful, parsable
    upstream reply. *)
Theorem event_loop_store_invariant (schedule : list Step) t :
  t <> "" -> (t ∈ tokens (play start schedule) <-> paid_unspent t schedule).
Proof.
  intros Ht. induction schedule as [|e schedule IH] using rev_ind.
  - cbn [play start tokens]. split.
    + intros H. exfalso. revert H. apply not_elem_of_empty.
    + intros H. exfalso. exact (paid_unspent_nil _ H).
  - rewrite play_app. cbn [play].
    rewrite advance_store, paid_unspent_snoc by exact Ht.
    rewrite IH. reflexivity.
Qed.

Lemma event_loop_store_invariant_witness :
  "T1" <> "" /\
  ("T1" ∈ tokens (play start race) <-> paid_unspent "T1" race) /\
  "T1" ∉ tokens (play start race).
Proof.
  split; [discriminate|].
  split; [apply (event_loop_store_invariant race "T1"); discriminate|].
  vm_compute. discriminate.
Defined.

(** Every set of non-empty tokens is the store after some trace. *)
Lemma nonempty_reachable σ : "" ∉ σ -> reachable σ.
Proof.
  induction σ as [|t σ Hnew IH] using set_ind_L.
  - intros _. exists []. reflexivity.
  - intros Hne.
    assert (Ht : t <> "").
    { intros ->. apply Hne, elem_of_union. left. apply elem_of_singleton. reflexivity. }
    destruct IH as [trace Hrun].
    { intros H. apply Hne, elem_of_union. right. exact H. }
    exists (trace ++ [PostWebhook (paid_webhook t)])%list.
    rewrite run_snoc, Hrun. cbn [handle].
    rewrite (webhook_adds σ (paid_webhook t) _ t eq_refl eq_refl eq_refl eq_refl Ht).
    reflexivity.
Qed.

Lemma play_nonempty (schedule : list Step) s :
  "" ∉ tokens s -> "" ∉ tokens (play s schedule).
Proof.
  revert s. induction schedule as [|e schedule IH]; intros s H; [exact H|].
  cbn [play]. apply IH. destruct e as [r|i]; cbn [advance].
  - destruct r as [|preq| | |tok|req|wreq];
      try (cbn [fst tokens]; apply handle_nonempty, H).
    destruct (accept (tokens s) req); exact H.
  - destruct (nth_error (waiting s) i) as [req|]; [|exact H].
    cbn [fst tokens]. intros Hin.
    apply (proj1 (complete_spares (tokens s) req "")) in Hin. exact (H Hin).
Qed.

(** X18. The stores of the event loop are the stores of [run]: whatever
    the schedule, the store it leaves is one that serving some trace of
    requests one after the other leaves as well, and it never holds the
    empty string. What is proved of every [reachable] store therefore
    holds of the store at any moment of the event loop. *)
Theorem event_loop_stores_are_reachable (schedule : list Step) :
  reachable (tokens (play start schedule)) /\
  "" ∉ tokens (play start schedule).
Proof.
  assert (H : "" ∉ tokens (play start schedule)).
  { apply play_nonempty. cbn. apply not_elem_of_empty. }
  split; [apply nonempty_reachable, H|exact H].
Qed.

End EventLoop.
